(** * goconf: a shallow embedding of the configuration parser and loader

    The repository holds several revisions of the same package.

    - [Legacy] (the first revision of the parser, read line by line): an
      [Item] keeps its [rawKey]; the composite key [[@key]] or
      [[@key@sep]] is decoded on every array access.
    - [StateMachine] (the same revision with [Parse] written as a state
      machine over [ReadBytes]).
    - [Current] (conf.go, the item file and the loader with sections): an
      [Item] is [{key, val}], arrays are split on the process-wide
      [elementSep], a [Conf] groups items into sections and has a
      current-section cursor; [Load] fills a record from a file.

    Go strings are byte strings: [string] with one [ascii] per byte.
    Go [int] values are [Z].  A call that may return an error or panic
    returns a [result]; code that updates its receiver in place returns
    the new state beside its result. *)

From Stdlib Require Import ZArith Ascii String List Bool Lia.
From stdpp Require Import base option list gmap strings.

Open Scope string_scope.
Open Scope Z_scope.

(** ** Go runtime and standard library used by the package *)

Module Go.

(** Results of a call: a value, an [error] value, or a run-time panic. *)
Inductive result (E A : Type) : Type :=
| Ok (a : A)
| Err (e : E)
| Panic.
Arguments Ok {E A} a.
Arguments Err {E A} e.
Arguments Panic {E A}.

Definition bind {E A B} (r : result E A) (k : A -> result E B) : result E B :=
  match r with
  | Ok a => k a
  | Err e => Err e
  | Panic => Panic
  end.

Notation "'let!' x ':=' r 'in' k" := (bind r (fun x => k))
  (at level 10, x name, r at level 100, k at level 200, only parsing).

(** [len(s)] *)
Definition len (s : string) : Z := Z.of_nat (String.length s).

(** [s[i]]: a byte, or a panic when [i] is out of range. *)
Definition index {E} (s : string) (i : Z) : result E ascii :=
  if i <? 0 then Panic
  else match String.get (Z.to_nat i) s with
       | Some c => Ok c
       | None => Panic
       end.

(** [s[lo:hi]] for [0 <= lo <= hi <= len(s)]; a panic otherwise. *)
Definition slice {E} (s : string) (lo hi : Z) : result E string :=
  if (0 <=? lo) && (lo <=? hi) && (hi <=? len s)
  then Ok (String.substring (Z.to_nat lo) (Z.to_nat (hi - lo)) s)
  else Panic.

(** Membership of a byte in a cutset of ASCII characters. *)
Fixpoint inb (c : ascii) (chars : string) : bool :=
  match chars with
  | EmptyString => false
  | String d rest => Ascii.eqb c d || inb c rest
  end.

(** [strings.TrimLeft], [strings.TrimRight], [strings.Trim] for an ASCII
    cutset. *)
Fixpoint TrimLeft (s cutset : string) : string :=
  match s with
  | EmptyString => EmptyString
  | String c rest => if inb c cutset then TrimLeft rest cutset else s
  end.

Fixpoint TrimRight (s cutset : string) : string :=
  match s with
  | EmptyString => EmptyString
  | String c rest =>
      match TrimRight rest cutset with
      | EmptyString => if inb c cutset then EmptyString else String c EmptyString
      | r => String c r
      end
  end.

Definition Trim (s cutset : string) : string :=
  TrimRight (TrimLeft s cutset) cutset.

(** [string(b)] for a byte [b]: the UTF-8 encoding of the code point [b]
    (one byte below 0x80, two bytes from 0x80 on). *)
Definition string_of_byte (b : ascii) : string :=
  let n := N_of_ascii b in
  if (n <? 128)%N then String b EmptyString
  else String (ascii_of_N (192 + n / 64))
         (String (ascii_of_N (128 + n mod 64)) EmptyString).

(** [strings.HasPrefix] *)
Fixpoint HasPrefix (s prefix : string) : bool :=
  match prefix, s with
  | EmptyString, _ => true
  | String p prefix', String c s' => Ascii.eqb c p && HasPrefix s' prefix'
  | String _ _, EmptyString => false
  end.

(** The splitting loop of [strings.Split] and [strings.SplitN] for a
    non-empty separator: [skip] counts the bytes of a separator that was
    just matched and is being stepped over, [n] is the number of cuts
    still allowed ([None]: no limit), [seg] is the segment read so far. *)
Fixpoint genSplit (sep : string) (s : string) (skip : nat) (n : option nat)
    (seg : string) : list string :=
  match s with
  | EmptyString => [seg]
  | String c rest =>
      match skip with
      | S k => genSplit sep rest k n seg
      | O =>
          match n with
          | Some O => genSplit sep rest O n (seg +:+ String c EmptyString)
          | _ =>
              if HasPrefix s sep
              then seg :: genSplit sep rest (String.length sep - 1)
                            (Nat.pred <$> n) EmptyString
              else genSplit sep rest O n (seg +:+ String c EmptyString)
          end
      end
  end.

(** [strings.Split(s, sep)], [sep] not empty. *)
Definition Split (s sep : string) : list string :=
  genSplit sep s O None EmptyString.

(** [strings.SplitN(s, sep, n)], [sep] not empty. *)
Definition SplitN (s sep : string) (n : Z) : list string :=
  if n =? 0 then []
  else if n <? 0 then Split s sep
  else genSplit sep s O (Some (Z.to_nat (n - 1))) EmptyString.

(** [strings.LastIndexAny(s, chars)] for ASCII [chars]. *)
Fixpoint lastIndexAny (s chars : string) (i last : Z) : Z :=
  match s with
  | EmptyString => last
  | String c rest => lastIndexAny rest chars (i + 1) (if inb c chars then i else last)
  end.

Definition LastIndexAny (s chars : string) : Z := lastIndexAny s chars 0 (-1).

(** [strings.ToLower].  A text whose bytes are all below [0x80] is
    lowered byte by byte ([c += 'a' - 'A'] for [c] from [A] to [Z]); any
    other text is [strings.Map(unicode.ToLower, s)], which lowers every
    upper-case letter of Unicode: its case tables are not written out
    here, [unicodeToLower] stands for that call. *)
Definition lower_byte (c : ascii) : ascii :=
  let n := N_of_ascii c in
  if (65 <=? n)%N && (n <=? 90)%N then ascii_of_N (n + 32) else c.

Fixpoint isASCII (s : string) : bool :=
  match s with
  | EmptyString => true
  | String c rest => (N_of_ascii c <? 128)%N && isASCII rest
  end.

Fixpoint lowerASCII (s : string) : string :=
  match s with
  | EmptyString => EmptyString
  | String c rest => String (lower_byte c) (lowerASCII rest)
  end.

Definition ToLower (unicodeToLower : string -> string) (s : string) : string :=
  if isASCII s then lowerASCII s else unicodeToLower s.

(** [strconv.NumError.Err] *)
Inductive NumError := ErrSyntax | ErrRange.

Definition digit (c : ascii) : option Z :=
  let n := Z.of_N (N_of_ascii c) in
  if (48 <=? n) && (n <=? 57) then Some (n - 48) else None.

(** The digit loop of [strconv.ParseUint(s, 10, 64)]. *)
Fixpoint parseUintLoop (s : string) (n : Z) : Z + NumError :=
  match s with
  | EmptyString => inl n
  | String c rest =>
      match digit c with
      | None => inr ErrSyntax
      | Some d =>
          if n >=? (2 ^ 64 - 1) / 10 + 1 then inr ErrRange
          else if n * 10 + d >? 2 ^ 64 - 1 then inr ErrRange
          else parseUintLoop rest (n * 10 + d)
      end
  end.

Definition ParseUint (s : string) : Z + NumError :=
  match s with
  | EmptyString => inr ErrSyntax
  | _ => parseUintLoop s 0
  end.

(** [strconv.ParseInt(s, 10, 64)] *)
Definition ParseInt (s : string) : Z + NumError :=
  match s with
  | EmptyString => inr ErrSyntax
  | String c rest =>
      let neg := Ascii.eqb c "-" in
      let body := if Ascii.eqb c "+" || neg then rest else s in
      match ParseUint body with
      | inr ErrSyntax => inr ErrSyntax
      | inr ErrRange => inr ErrRange
      | inl un =>
          if negb neg && (un >=? 2 ^ 63) then inr ErrRange
          else if neg && (un >? 2 ^ 63) then inr ErrRange
          else inl (if neg then - un else un)
      end
  end.

(** The last byte of a string, the text before and after the first [c],
    and whether [c] occurs: used to state properties of the texts. *)
Definition lastByte (s : string) : option ascii :=
  String.get (String.length s - 1) s.

Fixpoint before (c : ascii) (s : string) : string :=
  match s with
  | EmptyString => EmptyString
  | String d rest => if Ascii.eqb d c then EmptyString else String d (before c rest)
  end.

Fixpoint after (c : ascii) (s : string) : string :=
  match s with
  | EmptyString => EmptyString
  | String d rest => if Ascii.eqb d c then rest else after c rest
  end.

Fixpoint contains (c : ascii) (s : string) : bool :=
  match s with
  | EmptyString => false
  | String d rest => Ascii.eqb d c || contains c rest
  end.

End Go.

Import Go.

(** ** Constants shared by every revision of the package *)

Definition _KV_SEP : ascii := ":".
Definition _NEWLINE : ascii := "010".
Definition _SPACE_CHARS : string :=
  String " " (String "009" (String "010" EmptyString)).
Definition _DEFAULT_SEP : ascii := " ".
Definition _COMMENT_TAG : ascii := "#".

(** A newline and a tab as strings, to write texts with. *)
Definition newline : string := String _NEWLINE EmptyString.
Definition tab : string := String "009" EmptyString.

(** ** [bufio.Reader] over a text held in memory

    [ReadLines text] is the sequence of strings that successive calls of
    [ReadString('\n')] return before the call that returns the empty
    string with [io.EOF]: each ends with its newline, except possibly the
    last.  No other read error occurs on a text held in memory. *)

Module bufio.

Fixpoint ReadLines (text : string) : list string :=
  match text with
  | EmptyString => []
  | String c rest =>
      if Ascii.eqb c _NEWLINE then String c EmptyString :: ReadLines rest
      else match ReadLines rest with
           | [] => [String c EmptyString]
           | l :: ls => String c l :: ls
           end
  end.

End bufio.

(** ** The first revision: items with a raw composite key *)

Module Legacy.

Definition _ARRAY_TAG : ascii := "@".
Definition _MAP_TAG : ascii := "$".
Definition _COMPOSITE_LEFT : ascii := "[".
Definition _COMPOSITE_RIGHT : ascii := "]".

Inductive error :=
| ErrNotArray (rawKey : string)   (* "item is not a Array, key: ..." *)
| ErrNoArrayTag                   (* "not found Array Tag: @" *)
| ErrSepOneChar                   (* "Array Sep can only set to one char" *)
| ErrNum (e : NumError)           (* error of strconv.ParseInt *)
| ErrNeedColon (line : string)    (* "the line need a ':', line: ..." *)
| ErrEmptyValue                   (* "an empty value" *)
| ErrNonExistKey (key : string).  (* "non-exist key: ..." *)

Record Item := { rawKey : string; val : string; key : string }.

Definition neqb (a b : ascii) : bool := negb (Ascii.eqb a b).

(** [Item.ToStringArray]: the guard evaluates its four tests from left to
    right and stops at the first that holds, as Go's [||] does. *)
Definition ToStringArray (item : Item) : result error (list string) :=
  let keyLen := len (rawKey item) in
  let! c0 := index (rawKey item) 0 in
  let! notArray :=
    (if neqb c0 _COMPOSITE_LEFT then Ok true
     else
       let! cl := index (rawKey item) (keyLen - 1) in
       if neqb cl _COMPOSITE_RIGHT then Ok true
       else
         let! c1 := index (rawKey item) 1 in
         if neqb c1 _ARRAY_TAG then Ok true
         else Ok (keyLen <? 4)) in
  if notArray : bool then Err (ErrNotArray (rawKey item))
  else
    let sepIdx := LastIndexAny (rawKey item) (String _ARRAY_TAG EmptyString) in
    if sepIdx =? -1 then Err ErrNoArrayTag
    else
      let! sep :=
        (if sepIdx =? 1 then Ok _DEFAULT_SEP
         else if negb (sepIdx =? keyLen - 3) then Err ErrSepOneChar
         else index (rawKey item) (sepIdx + 1)) in
      Ok (Split (val item) (string_of_byte sep)).

(** The loop of [ToIntArray] over the elements. *)
Fixpoint parseInts (eleStr : list string) : result error (list Z) :=
  match eleStr with
  | [] => Ok []
  | ele :: rest =>
      match ParseInt (Trim ele _SPACE_CHARS) with
      | inr e => Err (ErrNum e)
      | inl v => let! vs := parseInts rest in Ok (v :: vs)
      end
  end.

Definition ToIntArray (item : Item) : result error (list Z) :=
  let! eleStr := ToStringArray item in
  parseInts eleStr.

(** [parseKey]: the lookup key of a raw key, composite markers stripped. *)
Definition isTag (c : ascii) : bool :=
  Ascii.eqb c _ARRAY_TAG || Ascii.eqb c _MAP_TAG.

Definition parseKey (k : string) : result error string :=
  if len k <? 4 then Ok k
  else
    let! c0 := index k 0 in
    let! plain :=
      (if neqb c0 _COMPOSITE_LEFT then Ok true
       else
         let! cl := index k (len k - 1) in
         if neqb cl _COMPOSITE_RIGHT then Ok true
         else let! c1 := index k 1 in Ok (negb (isTag c1))) in
    if plain : bool then Ok k
    else
      let! c := index k (len k - 3) in
      if negb (len k =? 4) && isTag c then slice k 2 (len k - 3)
      else slice k 2 (len k - 1).

Record Conf := { filePath : string; items : gmap string Item }.

Definition New (path : string) : Conf := {| filePath := path; items := ∅ |}.

(** One turn of the loop of [Parse] (the line-by-line revision). *)
Definition parseLine (conf : Conf) (line : string) : result error Conf :=
  let lineStr := TrimLeft line _SPACE_CHARS in
  if len lineStr =? 0 then Ok conf
  else
    let! cl := index lineStr (len lineStr - 1) in
    let! lineStr :=
      (if Ascii.eqb cl _NEWLINE then slice lineStr 0 (len lineStr - 1)
       else Ok lineStr) in
    let! c0 := index lineStr 0 in
    if Ascii.eqb c0 _COMMENT_TAG then Ok conf
    else
      match SplitN lineStr (String _KV_SEP EmptyString) 2 with
      | [k; v] =>
          let rawKey := Trim k _SPACE_CHARS in
          let! key := parseKey rawKey in
          let val := Trim v _SPACE_CHARS in
          if len val =? 0 then Err ErrEmptyValue
          else Ok {| filePath := filePath conf;
                     items := <[key := {| rawKey := rawKey; val := val; key := key |}]>
                                (items conf) |}
      | _ => Err (ErrNeedColon lineStr)
      end.

Fixpoint parseLines (conf : Conf) (lines : list string) : Conf * result error unit :=
  match lines with
  | [] => (conf, Ok tt)
  | line :: rest =>
      match parseLine conf line with
      | Ok conf' => parseLines conf' rest
      | Err e => (conf, Err e)
      | Panic => (conf, Panic)
      end
  end.

(** [Parse] on the opened file, [text] being what the reader yields. *)
Definition Parse (conf : Conf) (text : string) : Conf * result error unit :=
  parseLines conf (bufio.ReadLines text).

Definition GetItem (conf : Conf) (k : string) : result error Item :=
  match items conf !! k with
  | Some item => Ok item
  | None => Err (ErrNonExistKey k)
  end.

Definition HasItem (conf : Conf) (k : string) : bool :=
  match items conf !! k with
  | Some _ => true
  | None => false
  end.

Definition GetStringArray (conf : Conf) (k : string) : result error (list string) :=
  let! item := GetItem conf k in ToStringArray item.

(** The composite-array grammar in the words of the format: first byte
    [[], last byte []], the array marker in position two, at least four
    bytes in all. *)
Definition compositeArrayKey (k : string) : bool :=
  match String.get 0 k, lastByte k, String.get 1 k with
  | Some c0, Some cl, Some c1 =>
      Ascii.eqb c0 "[" && Ascii.eqb cl "]" && Ascii.eqb c1 "@"
      && (4 <=? String.length k)%nat
  | _, _, _ => false
  end.

End Legacy.

(** ** The state-machine revision of [Parse]

    The second file of the first revision reads the text with
    [ReadBytes]: up to the next [:] for a key, then up to the next
    newline for its value.  Items and [parseKey] are those of [Legacy]. *)

Module StateMachine.

Import Legacy.

Inductive ParseState :=
| _PARSE_ERR | _PARSE_START | _PARSE_FOUND_KEY | _PARSE_FOUND_VAL
| _PARSE_FOUND_KV | _PARSE_DONE.

Inductive error :=
| EOF                             (* io.EOF, the only error of a reader in memory *)
| ErrKey (e : Legacy.error).

(** [bufio.Reader.ReadBytes(delim)] on the unread text: the bytes up to
    and including the first [delim], the text left, and whether the end
    was met first ([io.EOF]). *)
Fixpoint ReadBytes (buf : string) (delim : ascii) : string * string * bool :=
  match buf with
  | EmptyString => (EmptyString, EmptyString, true)
  | String c rest =>
      if Ascii.eqb c delim then (String c EmptyString, rest, false)
      else match ReadBytes rest delim with
           | (l, r, e) => (String c l, r, e)
           end
  end.

Fixpoint isSpaceBuf (buf : string) : bool :=
  match buf with
  | EmptyString => true
  | String c rest =>
      if negb (Ascii.eqb c " ") && negb (Ascii.eqb c "010") && negb (Ascii.eqb c "009")
      then false else isSpaceBuf rest
  end.

Definition extraceString {E} (buf : string) : result E string :=
  let! str := slice buf 0 (len buf - 1) in
  Ok (Trim str _SPACE_CHARS).

(** The reader, the variables of [Parse] and the fields of [Conf] that
    the loop updates; [err] tells whether [err] holds [io.EOF]. *)
Record Machine := {
  unread : string;
  parseBuf : string;
  err : bool;
  key : string;
  valStr : string;
  items : gmap string Item;
  curState : ParseState
}.

Definition start (text : string) : Machine :=
  {| unread := text; parseBuf := EmptyString; err := false; key := EmptyString;
     valStr := EmptyString; items := ∅; curState := _PARSE_START |}.

(** One turn of the loop: the machine to go on with, or what [Parse]
    returns. *)
Definition step (m : Machine) : result error (Machine + unit) :=
  match curState m with
  | _PARSE_START =>
      match ReadBytes (unread m) _KV_SEP with
      | (b, rest, eof) =>
          let next :=
            if eof && isSpaceBuf b then _PARSE_DONE
            else if eof then _PARSE_ERR
            else _PARSE_FOUND_KEY in
          Ok (inl {| unread := rest; parseBuf := b; err := eof; key := key m;
                     valStr := valStr m; items := items m; curState := next |})
      end
  | _PARSE_FOUND_KEY =>
      let! k := extraceString (parseBuf m) in
      match ReadBytes (unread m) _NEWLINE with
      | (b, rest, eof) =>
          let next :=
            if (eof && negb (isSpaceBuf b)) || negb eof then _PARSE_FOUND_VAL
            else _PARSE_ERR in
          Ok (inl {| unread := rest; parseBuf := b; err := eof; key := k;
                     valStr := valStr m; items := items m; curState := next |})
      end
  | _PARSE_FOUND_VAL =>
      let! v := extraceString (parseBuf m) in
      Ok (inl {| unread := unread m; parseBuf := parseBuf m; err := err m;
                 key := key m; valStr := v; items := items m;
                 curState := _PARSE_FOUND_KV |})
  | _PARSE_FOUND_KV =>
      let rawKey := key m in
      match parseKey rawKey with
      | Ok k =>
          Ok (inl {| unread := unread m; parseBuf := parseBuf m; err := err m;
                     key := k; valStr := valStr m;
                     items := <[k := {| Legacy.rawKey := rawKey; Legacy.val := valStr m;
                                        Legacy.key := k |}]> (items m);
                     curState := _PARSE_START |})
      | Err e => Err (ErrKey e)
      | Panic => Panic
      end
  | _PARSE_ERR => if err m then Err EOF else Ok (inr tt)
  | _PARSE_DONE => Ok (inr tt)
  end.

(** The loop, for at most [fuel] turns, with the machine it stops in;
    [None] when the turns do not suffice. *)
Fixpoint run (fuel : nat) (m : Machine) : option (Machine * result error unit) :=
  match fuel with
  | O => None
  | S fuel' =>
      match step m with
      | Ok (inl m') => run fuel' m'
      | Ok (inr _) => Some (m, Ok tt)
      | Err e => Some (m, Err e)
      | Panic => Some (m, Panic)
      end
  end.

(** The turns that the loop takes at most from a machine: four for each
    unread byte, and those left in the current round. *)
Definition turns (m : Machine) : nat :=
  match curState m with
  | _PARSE_ERR | _PARSE_DONE => 1
  | _PARSE_START => 4 * String.length (unread m) + 2
  | _PARSE_FOUND_KV => 4 * String.length (unread m) + 3
  | _PARSE_FOUND_VAL => 4 * String.length (unread m) + 4
  | _PARSE_FOUND_KEY => 4 * String.length (unread m) + 5
  end.

(** [Parse] on the text of the opened file. *)
Definition Parse (text : string) : option (Machine * result error unit) :=
  run (turns (start text)) (start text).

End StateMachine.

(** ** [reflect.Kind] *)

Module reflect.

Inductive Kind :=
| Invalid | Bool
| Int | Int8 | Int16 | Int32 | Int64
| Uint | Uint8 | Uint16 | Uint32 | Uint64 | Uintptr
| Float32 | Float64 | Complex64 | Complex128
| Array | Chan | Func | Interface | Map | Pointer | Slice | String | Struct
| UnsafePointer.

Definition Kind_eq_dec (a b : Kind) : {a = b} + {a <> b}.
Proof. decide equality. Defined.

Definition eqb (a b : Kind) : bool := if Kind_eq_dec a b then true else false.

End reflect.

(** ** The current revision: sections, the process-wide separator, the loader *)

Module Current.

Definition _GLOBAL : string := "__global__".
Definition _SECTION_LEFT : ascii := "[".
Definition _SECTION_RIGHT : ascii := "]".

Inductive error :=
| ErrOpen (path : string)            (* error of os.Open *)
| ErrSectionExist (name : string)    (* "section '%s' already exist" *)
| ErrNeedColon (line : string)       (* "need ':' in a line, line: %s" *)
| ErrEmptyValue                      (* "an empty value" *)
| ErrNonExistItem (key : string)     (* "non-exist item: %s" *)
| ErrNoSection (name : string)       (* "no section '%s'" *)
| ErrNum (e : NumError)              (* error of strconv *)
| WrapErr (e : error)                (* goutils.WrapErr *)
| ErrFieldNotSettable (field : string)   (* "field not settable, field: ..." *)
| ErrNotSupportType (k : reflect.Kind)   (* "not support type: ..." *)
| ErrNotSupportElem.                 (* "not support element type for slice" *)

Record Item := { key : string; val : string }.

(** A section is a Go map, that is a reference: [heap] holds the maps
    that [newSection()] allocated, a section value is the address of one
    ([None] is the nil map).  [eleSep] is never read nor written after
    [New] has left it zero. *)
Record Conf := {
  filePath : string;
  heap : list (gmap string Item);
  sections : gmap string nat;
  eleSep : ascii;
  cur : option nat
}.

Definition setCur (conf : Conf) (r : option nat) : Conf :=
  {| filePath := filePath conf; heap := heap conf;
     sections := sections conf; eleSep := eleSep conf; cur := r |}.

(** Reading through a map reference; a nil map reads as empty. *)
Definition deref (conf : Conf) (r : option nat) : gmap string Item :=
  match r with
  | Some a => default ∅ (heap conf !! a)
  | None => ∅
  end.

(** [m[k] = v] through a map reference; a write to the nil map panics. *)
Definition store (conf : Conf) (r : option nat) (k : string) (v : Item)
    : result error Conf :=
  match r with
  | Some a =>
      Ok {| filePath := filePath conf;
            heap := <[a := <[k := v]> (deref conf r)]> (heap conf);
            sections := sections conf; eleSep := eleSep conf; cur := cur conf |}
  | None => Panic
  end.

(** [conf.cur = newSection(); conf.sections[name] = conf.cur] *)
Definition addSection (conf : Conf) (name : string) : Conf :=
  let a := length (heap conf) in
  {| filePath := filePath conf;
     heap := heap conf ++ [∅];
     sections := <[name := a]> (sections conf);
     eleSep := eleSep conf;
     cur := Some a |}.

Definition New (path : string) : Conf :=
  {| filePath := path; heap := [∅]; sections := {[ _GLOBAL := O ]};
     eleSep := "000"; cur := Some O |}.

Definition isSection (line : string) : result error bool :=
  let! c0 := index line 0 in
  if Ascii.eqb c0 _SECTION_LEFT
  then let! cl := index line (len line - 1) in Ok (Ascii.eqb cl _SECTION_RIGHT)
  else Ok false.

(** One turn of the loop of [_parse] on the line just read: [Ok] is the
    configuration with which the loop goes on. *)
Definition parseLine (conf : Conf) (line : string) : result error Conf :=
  let lineStr := Trim line _SPACE_CHARS in
  if len lineStr =? 0 then Ok conf
  else
    let! cl := index lineStr (len lineStr - 1) in
    let! lineStr :=
      (if Ascii.eqb cl _NEWLINE then slice lineStr 0 (len lineStr - 1)
       else Ok lineStr) in
    let! c0 := index lineStr 0 in
    if Ascii.eqb c0 _COMMENT_TAG then Ok conf
    else
      let! sec := isSection lineStr in
      if sec : bool then
        let! inner := slice lineStr 1 (len lineStr - 1) in
        let sectionName := Trim inner _SPACE_CHARS in
        match sections conf !! sectionName with
        | Some _ => Err (ErrSectionExist sectionName)
        | None => Ok (addSection conf sectionName)
        end
      else
        match SplitN lineStr (String _KV_SEP EmptyString) 2 with
        | [k; v] =>
            let key := Trim k _SPACE_CHARS in
            let val := Trim v _SPACE_CHARS in
            if len val =? 0 then Err ErrEmptyValue
            else store conf (cur conf) key {| key := key; val := val |}
        | _ => Err (ErrNeedColon lineStr)
        end.

(** The loop of [_parse] over the lines the reader yields; the state
    reached is returned beside the result, since the caller's [Conf] is
    updated in place. *)
Fixpoint _parse (conf : Conf) (lines : list string) : Conf * result error unit :=
  match lines with
  | [] => (conf, Ok tt)
  | line :: rest =>
      match parseLine conf line with
      | Ok conf' => _parse conf' rest
      | Err e => (conf, Err e)
      | Panic => (conf, Panic)
      end
  end.

Definition SetGlobalSection (conf : Conf) : Conf :=
  setCur conf (sections conf !! _GLOBAL).

(** [Parse]: [fs] is the file system, a path read as the text of the
    file when [os.Open] succeeds. *)
Definition Parse (fs : string -> option string) (conf : Conf)
    : Conf * result error unit :=
  match fs (filePath conf) with
  | None => (conf, Err (WrapErr (ErrOpen (filePath conf))))
  | Some text =>
      match _parse conf (bufio.ReadLines text) with
      | (conf', Ok _) => (SetGlobalSection conf', Ok tt)
      | (conf', r) => (conf', r)
      end
  end.

Definition GetItem (conf : Conf) (k : string) : result error Item :=
  match deref conf (cur conf) !! k with
  | Some item => Ok item
  | None => Err (ErrNonExistItem k)
  end.

Definition HasItem (conf : Conf) (k : string) : bool :=
  match deref conf (cur conf) !! k with
  | Some _ => true
  | None => false
  end.

(** [Conf.Section]; the name carries an underscore since the plain word
    opens a section of the proof script. *)
Definition Section_ (conf : Conf) (name : string) : Conf * result error unit :=
  match sections conf !! name with
  | Some section => (setCur conf (Some section), Ok tt)
  | None => (conf, Err (ErrNoSection name))
  end.

Definition HasSection (conf : Conf) (name : string) : bool :=
  match sections conf !! name with
  | Some _ => true
  | None => false
  end.

(** What the lookups through the cursor of [conf] return when the
    current section holds exactly the items [m]. *)
Definition sees (conf : Conf) (m : gmap string Item) : Prop :=
  forall k,
    HasItem conf k = bool_decide (is_Some (m !! k))
    /\ GetItem conf k = match m !! k with
                        | Some item => Ok item
                        | None => Err (ErrNonExistItem k)
                        end.

(** [Conf.Items]: the items of the current section.  Go ranges over the
    map in an order it does not fix; the list here is in the order of
    the finite map, and is to be read up to the order of its elements. *)
Definition Items (conf : Conf) : list Item :=
  (map_to_list (deref conf (cur conf))).*2.

(** *** The line grammar, in the words of the file format

    A line is read after trimming spaces, tabs and newlines from both
    ends: blank; a comment when it begins with [#]; a section header when
    it begins with [[] and ends with []], named by the trimmed text in
    between; otherwise a key and a value around the first [:]. *)

Inductive lineKind :=
| Blank
| Comment
| Header (name : string)
| KeyValue (k v : string)
| EmptyValue
| NoSeparator (line : string).

Definition classify (line : string) : lineKind :=
  let t := Trim line _SPACE_CHARS in
  match t with
  | EmptyString => Blank
  | String c0 _ =>
      if Ascii.eqb c0 "#" then Comment
      else if Ascii.eqb c0 "[" && bool_decide (lastByte t = Some "]"%char)
      then Header (Trim (String.substring 1 (String.length t - 2) t) _SPACE_CHARS)
      else if contains ":" t then
        let k := Trim (before ":" t) _SPACE_CHARS in
        let v := Trim (after ":" t) _SPACE_CHARS in
        match v with
        | EmptyString => EmptyValue
        | _ => KeyValue k v
        end
      else NoSeparator t
  end.

(** The effect of a line of each kind on the configuration. *)
Definition applyLine (conf : Conf) (k : lineKind) : result error Conf :=
  match k with
  | Blank | Comment => Ok conf
  | Header n =>
      match sections conf !! n with
      | Some _ => Err (ErrSectionExist n)
      | None => Ok (addSection conf n)
      end
  | KeyValue k v => store conf (cur conf) k {| key := k; val := v |}
  | EmptyValue => Err ErrEmptyValue
  | NoSeparator t => Err (ErrNeedColon t)
  end.

(** The items declared under section [name]: the key/value lines read
    while [name] is the section of the last header ([curName], the
    global section before any header); a later line for the same key
    replaces the earlier one. *)
Fixpoint declared (lines : list string) (curName name : string)
    (acc : gmap string Item) : gmap string Item :=
  match lines with
  | [] => acc
  | line :: rest =>
      match classify line with
      | Header n => declared rest n name acc
      | KeyValue k v =>
          declared rest curName name
            (if String.eqb curName name then <[k := {| key := k; val := v |}]> acc
             else acc)
      | _ => declared rest curName name acc
      end
  end.

(** The names of the section headers of a text, in the order of the
    lines. *)
Fixpoint headers (lines : list string) : list string :=
  match lines with
  | [] => []
  | line :: rest =>
      match classify line with
      | Header n => n :: headers rest
      | _ => headers rest
      end
  end.

(** What [_parse] keeps true of every item it stores: it is stored under
    its own key, key and value are trimmed, and the value is not empty. *)
Definition storedItem (k : string) (item : Item) : Prop :=
  key item = k
  /\ Trim k _SPACE_CHARS = k
  /\ Trim (val item) _SPACE_CHARS = val item
  /\ val item <> EmptyString.

(** The invariant of a [Conf] while its file is read: [curName] is the
    name under which the current section is registered, and [f n] is the
    content of the map registered under [n] ([f n] is empty as long as
    [n] is not registered).  No map is registered under two names. *)
Record confInv (conf : Conf) (curName : string)
    (f : string -> gmap string Item) : Prop := {
  inv_cur : exists a, sections conf !! curName = Some a /\ cur conf = Some a;
  inv_heap : forall n a, sections conf !! n = Some a -> heap conf !! a = Some (f n);
  inv_inj : forall n1 n2 a,
      sections conf !! n1 = Some a -> sections conf !! n2 = Some a -> n1 = n2;
  inv_fresh : forall n, sections conf !! n = None -> f n = ∅;
  inv_global : is_Some (sections conf !! _GLOBAL)
}.

(** *** Item coercions, typed getters and the loader

    [elementSep] is the package variable of that name ([init] sets it to
    [_DEFAULT_SEP], [SetElementSep] overwrites it).  Floating-point
    numbers are kept abstract: [F] stands for [float64], [ParseFloat] for
    [strconv.ParseFloat(s, 64)] and [toFloat32] for the conversion to
    [float32] and back.  So are the case tables of Unicode:
    [unicodeToLower] is the parameter of [ToLower]. *)

Section Globals.

Variable elementSep : ascii.
Variable F : Type.
Variable ParseFloat : string -> F + NumError.
Variable toFloat32 : F -> F.
Variable unicodeToLower : string -> string.

Definition ToInt (item : Item) : result error Z :=
  match ParseInt (val item) with
  | inl v => Ok v
  | inr e => Err (ErrNum e)
  end.

Definition ToFloat (item : Item) : result error F :=
  match ParseFloat (val item) with
  | inl v => Ok v
  | inr e => Err (ErrNum e)
  end.

Definition ToString (item : Item) : string := val item.

(** The loop of [ToStringArray] over the parts, [eles] being the slice
    built so far. *)
Fixpoint appendParts (parts : list string) (eles : list string) : list string :=
  match parts with
  | [] => eles
  | p :: rest =>
      if String.eqb p EmptyString then appendParts rest eles
      else appendParts rest (eles ++ [Trim p _SPACE_CHARS])
  end.

Definition ToStringArray (item : Item) : list string :=
  let parts := Split (val item) (string_of_byte elementSep) in
  appendParts parts [].

Fixpoint parseInts (eleStr : list string) : result error (list Z) :=
  match eleStr with
  | [] => Ok []
  | ele :: rest =>
      match ParseInt (Trim ele _SPACE_CHARS) with
      | inr e => Err (WrapErr (ErrNum e))
      | inl v => let! vs := parseInts rest in Ok (v :: vs)
      end
  end.

Definition ToIntArray (item : Item) : result error (list Z) :=
  parseInts (ToStringArray item).

Fixpoint parseFloats (eleStr : list string) : result error (list F) :=
  match eleStr with
  | [] => Ok []
  | ele :: rest =>
      match ParseFloat (Trim ele _SPACE_CHARS) with
      | inr e => Err (WrapErr (ErrNum e))
      | inl v => let! vs := parseFloats rest in Ok (v :: vs)
      end
  end.

Definition ToFloatArray (item : Item) : result error (list F) :=
  parseFloats (ToStringArray item).

(** [GetItem] followed by a coercion; the error of [GetItem] is wrapped. *)
Definition getWith {A} (conf : Conf) (k : string) (f : Item -> result error A)
    : result error A :=
  match GetItem conf k with
  | Ok item => f item
  | Err e => Err (WrapErr e)
  | Panic => Panic
  end.

Definition GetInt (conf : Conf) (k : string) : result error Z :=
  getWith conf k ToInt.

Definition GetFloat (conf : Conf) (k : string) : result error F :=
  getWith conf k ToFloat.

Definition GetString (conf : Conf) (k : string) : result error string :=
  getWith conf k (fun item => Ok (val item)).

Definition GetIntArray (conf : Conf) (k : string) : result error (list Z) :=
  getWith conf k ToIntArray.

Definition GetFloatArray (conf : Conf) (k : string) : result error (list F) :=
  getWith conf k ToFloatArray.

Definition GetStringArray (conf : Conf) (k : string) : result error (list string) :=
  getWith conf k (fun item => Ok (ToStringArray item)).

(** **** The target record as [reflect] presents it

    A [Value] is a settable place together with its type: the integer
    and floating-point places carry their kind, a slice carries the type
    of its elements, a struct carries its fields in declaration order,
    each with its name and whether [CanSet] holds for it.  [VOther] is a
    place of any other kind (bool, map, pointer, ...).

    The type of the elements of a slice is its kind together with
    whether it is the predeclared type of that kind ([int64], [float64],
    [string], ...; an alias is the type itself) or a type defined from it
    ([type ID int64]): [reflect.Append] tells the two apart. *)

Record ElemType := { elemKind : reflect.Kind; predeclared : bool }.

Inductive Scalar :=
| SInt (z : Z)
| SFloat (f : F)
| SString (s : string).

Inductive Value :=
| VInt (k : reflect.Kind) (z : Z)
| VFloat (k : reflect.Kind) (f : F)
| VString (s : string)
| VSlice (elem : ElemType) (vs : list Scalar)
| VStruct (fs : Fields)
| VOther (k : reflect.Kind)
with Fields :=
| FNil
| FCons (name : string) (canSet : bool) (v : Value) (rest : Fields).

Definition Kind (v : Value) : reflect.Kind :=
  match v with
  | VInt k _ => k
  | VFloat k _ => k
  | VString _ => reflect.String
  | VSlice _ _ => reflect.Slice
  | VStruct _ => reflect.Struct
  | VOther k => k
  end.

Scheme Value_mut := Induction for Value Sort Prop
  with Fields_mut := Induction for Fields Sort Prop.
Combined Scheme Value_Fields_ind from Value_mut, Fields_mut.

(** The static type of a place, as [reflect.Type] gives it: a value
    without its content. *)
Inductive Ty :=
| TInt (k : reflect.Kind)
| TFloat (k : reflect.Kind)
| TString
| TSlice (elem : ElemType)
| TStruct (fs : TyFields)
| TOther (k : reflect.Kind)
with TyFields :=
| TNil
| TCons (name : string) (canSet : bool) (t : Ty) (rest : TyFields).

Fixpoint typeOf (v : Value) : Ty :=
  match v with
  | VInt k _ => TInt k
  | VFloat k _ => TFloat k
  | VString _ => TString
  | VSlice elem _ => TSlice elem
  | VStruct fs => TStruct (typesOf fs)
  | VOther k => TOther k
  end
with typesOf (fs : Fields) : TyFields :=
  match fs with
  | FNil => TNil
  | FCons name canSet v rest => TCons name canSet (typeOf v) (typesOf rest)
  end.

(** The names of the fields of a struct, and whether [CanSet] holds for
    each of them. *)
Fixpoint fieldNames (fs : Fields) : list string :=
  match fs with
  | FNil => []
  | FCons name _ _ rest => name :: fieldNames rest
  end.

Fixpoint allSettable (fs : Fields) : bool :=
  match fs with
  | FNil => true
  | FCons _ canSet _ rest => canSet && allSettable rest
  end.

Definition isInt (k : reflect.Kind) : bool :=
  match k with
  | reflect.Int | reflect.Int8 | reflect.Int16 | reflect.Int32 | reflect.Int64
  | reflect.Uint | reflect.Uint8 | reflect.Uint16 | reflect.Uint32
  | reflect.Uint64 => true
  | _ => false
  end.

Definition isFloat (k : reflect.Kind) : bool :=
  match k with
  | reflect.Float32 | reflect.Float64 => true
  | _ => false
  end.

(** Two's complement value of [x] in [bits] bits. *)
Definition wrap (bits : Z) (x : Z) : Z :=
  (x + 2 ^ (bits - 1)) mod 2 ^ bits - 2 ^ (bits - 1).

(** [Value.SetInt]: panics unless the kind is a signed integer kind
    ([int] has 64 bits). *)
Definition SetInt (v : Value) (x : Z) : result error Value :=
  match v with
  | VInt reflect.Int _ => Ok (VInt reflect.Int x)
  | VInt reflect.Int8 _ => Ok (VInt reflect.Int8 (wrap 8 x))
  | VInt reflect.Int16 _ => Ok (VInt reflect.Int16 (wrap 16 x))
  | VInt reflect.Int32 _ => Ok (VInt reflect.Int32 (wrap 32 x))
  | VInt reflect.Int64 _ => Ok (VInt reflect.Int64 x)
  | _ => Panic
  end.

(** The width of the signed integer kinds ([int] has 64 bits), and the
    unsigned kinds that [isInt] accepts. *)
Definition signedBits (k : reflect.Kind) : option Z :=
  match k with
  | reflect.Int | reflect.Int64 => Some 64
  | reflect.Int8 => Some 8
  | reflect.Int16 => Some 16
  | reflect.Int32 => Some 32
  | _ => None
  end.

Definition isUint (k : reflect.Kind) : bool :=
  match k with
  | reflect.Uint | reflect.Uint8 | reflect.Uint16 | reflect.Uint32
  | reflect.Uint64 => true
  | _ => false
  end.

Definition SetFloat (v : Value) (x : F) : result error Value :=
  match v with
  | VFloat reflect.Float32 _ => Ok (VFloat reflect.Float32 (toFloat32 x))
  | VFloat reflect.Float64 _ => Ok (VFloat reflect.Float64 x)
  | _ => Panic
  end.

Definition SetString (v : Value) (x : string) : result error Value :=
  match v with
  | VString _ => Ok (VString x)
  | _ => Panic
  end.

(** [fieldValue.Set(reflect.Append( *fieldValue, reflect.ValueOf(val)))]
    for each [val]: [reflect.Append] panics unless [val] is assignable
    to the element type, that is unless the element type is the type of
    [val] itself, the predeclared type of kind [want] (an element type
    of an interface kind never comes here).  The first [val] panics or
    none does. *)
Definition appendAll (v : Value) (want : reflect.Kind) (vals : list Scalar)
    : result error Value :=
  match vals, v with
  | [], _ => Ok v
  | _, VSlice elem vs =>
      if reflect.eqb (elemKind elem) want && predeclared elem
      then Ok (VSlice elem (vs ++ vals))
      else Panic
  | _, _ => Panic
  end.

(** Map field to a config option: the first loop writes the
    [a_example_field] form into [buf].  A field name is a Go identifier,
    hence valid UTF-8 whose bytes from [0x80] on belong to letters of
    more than one byte: ranging over its runes and writing each back is
    ranging over its bytes. *)
Definition isUpper (c : ascii) : bool :=
  let n := N_of_ascii c in (65 <=? n)%N && (n <=? 90)%N.

Fixpoint snakeLoop (field : string) (buf : string) : string :=
  match field with
  | EmptyString => buf
  | String c rest =>
      if isUpper c then
        let buf := if negb (len buf =? 0) then buf +:+ "_" else buf in
        snakeLoop rest (buf +:+ ToLower unicodeToLower (String c EmptyString))
      else snakeLoop rest (buf +:+ String c EmptyString)
  end.

Definition parseConfigOptName (field : string) (conf : Conf) : string :=
  let f := snakeLoop field EmptyString in
  if HasItem conf f || HasSection conf f then f
  else
    let f := ToLower unicodeToLower field in
    if HasItem conf f || HasSection conf f then f
    else if HasItem conf field || HasSection conf field then field
    else EmptyString.



Definition loadSliceField (elem : reflect.Kind) (optName : string)
    (fieldValue : Value) (conf : Conf) : result error Value :=
  if isInt elem then
    let! vals := GetIntArray conf optName in
    appendAll fieldValue reflect.Int64 (SInt <$> vals)
  else if isFloat elem then
    let! vals := GetFloatArray conf optName in
    appendAll fieldValue reflect.Float64 (SFloat <$> vals)
  else if reflect.eqb elem reflect.String then
    let! vals := GetStringArray conf optName in
    appendAll fieldValue reflect.String (SString <$> vals)
  else Err ErrNotSupportElem.

(** [loadField] updates the field and the cursor of [conf] in place: the
    state of both is returned beside the result.  [loadFields] is the loop
    over the fields of a struct, stopping at the first error. *)
Fixpoint loadField (fieldName : string) (canSet : bool) (fieldValue : Value)
    (conf : Conf) {struct fieldValue} : Conf * Value * result error unit :=
  if negb canSet then (conf, fieldValue, Err (ErrFieldNotSettable fieldName))
  else
    let optName := parseConfigOptName fieldName conf in
    if String.eqb optName EmptyString then (conf, fieldValue, Ok tt)
    else
      let assign (r : result error Value) :=
        match r with
        | Ok v => (conf, v, Ok tt)
        | Err e => (conf, fieldValue, Err e)
        | Panic => (conf, fieldValue, Panic)
        end in
      let kind := Kind fieldValue in
      if isInt kind then
        assign (let! val := GetInt conf optName in SetInt fieldValue val)
      else if isFloat kind then
        assign (let! val := GetFloat conf optName in SetFloat fieldValue val)
      else if reflect.eqb kind reflect.String then
        assign (let! val := GetString conf optName in SetString fieldValue val)
      else
        match fieldValue with
        | VSlice elem _ =>
            assign (loadSliceField (elemKind elem) optName fieldValue conf)
        | VStruct fs =>
            let conf := fst (Section_ conf optName) in
            match loadFields fs conf with
            | (conf, fs, Ok _) => (SetGlobalSection conf, VStruct fs, Ok tt)
            | (conf, fs, r) => (conf, VStruct fs, r)
            end
        | _ => (conf, fieldValue, Err (ErrNotSupportType kind))
        end
with loadFields (fs : Fields) (conf : Conf) {struct fs}
    : Conf * Fields * result error unit :=
  match fs with
  | FNil => (conf, FNil, Ok tt)
  | FCons name canSet v rest =>
      match loadField name canSet v conf with
      | (conf, v, Ok _) =>
          match loadFields rest conf with
          | (conf, rest, r) => (conf, FCons name canSet v rest, r)
          end
      | (conf, v, r) => (conf, FCons name canSet v rest, r)
      end
  end.

(** [Load]: [configObj] is the record the pointer refers to, always
    settable; [NumField] panics on a value that is not a struct. *)
Definition Load (fs : string -> option string) (configObj : Value)
    (configFile : string) : Value * result error unit :=
  let conf := New configFile in
  match Parse fs conf with
  | (conf, Ok _) =>
      match configObj with
      | VStruct fields =>
          match loadFields fields conf with
          | (_, fields, r) => (VStruct fields, r)
          end
      | _ => (configObj, Panic)
      end
  | (_, Err e) => (configObj, Err e)
  | (_, Panic) => (configObj, Panic)
  end.

End Globals.

Arguments VInt {F} k z.
Arguments VFloat {F} k f.
Arguments VString {F} s.
Arguments VSlice {F} elem vs.
Arguments VStruct {F} fs.
Arguments VOther {F} k.
Arguments FNil {F}.
Arguments FCons {F} name canSet v rest.
Arguments SInt {F} z.
Arguments SFloat {F} f.
Arguments SString {F} s.

(** A platform for closed examples that hold no floating-point field:
    no text reads as a number there.  Their field names are ASCII, for
    which [ToLower] does not call its parameter: [noUnicode] is put
    there. *)
Definition noFloat : string -> Empty_set + NumError := fun _ => inr ErrSyntax.
Definition noFloat32 : Empty_set -> Empty_set := fun f => f.
Definition noUnicode : string -> string := fun s => s.

(** The element types of [[]int64] and [[]string]. *)
Definition int64Elem : ElemType :=
  {| elemKind := reflect.Int64; predeclared := true |}.
Definition stringElem : ElemType :=
  {| elemKind := reflect.String; predeclared := true |}.

End Current.

(** ** The loader of the revision without sections

    [parseConfigOptName] there writes the same first form and tries the
    same three forms, with [HasItem] alone: its [Conf] has no sections. *)

Module Loader2.

Definition parseConfigOptName (unicodeToLower : string -> string)
    (field : string) (conf : Legacy.Conf) : string :=
  let f := Current.snakeLoop unicodeToLower field EmptyString in
  if Legacy.HasItem conf f then f
  else
    let f := ToLower unicodeToLower field in
    if Legacy.HasItem conf f then f
    else if Legacy.HasItem conf field then field
    else EmptyString.

End Loader2.


(** * Properties *)

(** ** Byte strings *)

Section GoStrings.

Lemma app_String c (a b : string) : String c a +:+ b = String c (a +:+ b).
Proof. reflexivity. Qed.

Lemma app_empty (b : string) : EmptyString +:+ b = b.
Proof. reflexivity. Qed.

Lemma len_String c s : len (String c s) = len s + 1.
Proof. unfold len. cbn [String.length]. lia. Qed.

Lemma len_nonneg s : 0 <= len s.
Proof. unfold len. lia. Qed.

Lemma length_app (a b : string) :
  String.length (a +:+ b) = (String.length a + String.length b)%nat.
Proof.
  induction a as [|c a IH]; [reflexivity|].
  rewrite app_String. cbn [String.length]. now rewrite IH.
Qed.

Lemma len_app a b : len (a +:+ b) = len a + len b.
Proof. unfold len. rewrite length_app. lia. Qed.

Lemma get_app_r (a b : string) (n : nat) :
  String.get (String.length a + n) (a +:+ b) = String.get n b.
Proof.
  induction a as [|c a IH]; [reflexivity|].
  rewrite app_String. exact IH.
Qed.

Lemma index_app_r {E} (a b : string) (i : Z) :
  0 <= i -> @index E (a +:+ b) (len a + i) = index b i.
Proof.
  intros Hi. unfold index, len.
  destruct (Z.ltb_spec (Z.of_nat (String.length a) + i) 0); [lia|].
  destruct (Z.ltb_spec i 0); [lia|].
  replace (Z.to_nat (Z.of_nat (String.length a) + i))
    with (String.length a + Z.to_nat i)%nat by lia.
  now rewrite get_app_r.
Qed.

Lemma lastIndexAny_app a b chars i last :
  lastIndexAny (a +:+ b) chars i last
  = lastIndexAny b chars (i + len a) (lastIndexAny a chars i last).
Proof.
  revert i last. induction a as [|c a IH]; intros i last.
  - rewrite app_empty. unfold len. cbn. now rewrite Z.add_0_r.
  - rewrite app_String. cbn [lastIndexAny]. rewrite IH, len_String. f_equal. lia.
Qed.

Lemma lastIndexAny_absent c s i last :
  contains c s = false -> lastIndexAny s (String c EmptyString) i last = last.
Proof.
  revert i. induction s as [|d s IH]; intros i H; [reflexivity|].
  cbn in H. apply orb_false_iff in H as [Hd Hs].
  cbn [lastIndexAny inb]. rewrite Hd. cbn [orb]. now apply IH.
Qed.

Lemma index_last {E} (c : ascii) (s : string) :
  @index E (String c s) (len (String c s) - 1)
  = match lastByte (String c s) with Some d => Ok d | None => Panic end.
Proof.
  unfold index, lastByte. rewrite len_String. pose proof (len_nonneg s).
  destruct (Z.ltb_spec (len s + 1 - 1) 0); [lia|].
  replace (Z.to_nat (len s + 1 - 1)) with (String.length (String c s) - 1)%nat
    by (unfold len; cbn; lia).
  reflexivity.
Qed.

Lemma lastByte_String (c : ascii) (s : string) : is_Some (lastByte (String c s)).
Proof.
  unfold lastByte. cbn [String.length]. rewrite Nat.sub_1_r. cbn [Nat.pred].
  revert c. induction s as [|d s IH]; intros c; [eexists; reflexivity|].
  cbn [String.length String.get]. apply IH.
Qed.

End GoStrings.

(** ** The first revision: composite keys *)

Section LegacyFacts.

Import Legacy.

Lemma ToStringArray_default_sep (k v ky : string) :
  k <> EmptyString -> contains "@" k = false ->
  ToStringArray {| rawKey := "[@" +:+ k +:+ "]"; val := v; key := ky |}
  = Ok (Split v " ").
Proof.
  intros Hk Hat.
  unfold ToStringArray, _ARRAY_TAG, _COMPOSITE_LEFT, _COMPOSITE_RIGHT, _DEFAULT_SEP.
  cbn [rawKey val].
  set (raw := "[@" +:+ k +:+ "]").
  assert (Hlen : len raw = len k + 3).
  { unfold raw. rewrite !len_app. unfold len. cbn. lia. }
  assert (Hpos : 0 < len k).
  { destruct k; [congruence|]. rewrite len_String. pose proof (len_nonneg k). lia. }
  assert (H0 : @index error raw 0 = Ok "["%char) by reflexivity.
  assert (H1 : @index error raw 1 = Ok "@"%char) by reflexivity.
  assert (Hlast : @index error raw (len raw - 1) = Ok "]"%char).
  { rewrite Hlen. unfold raw.
    replace (len k + 3 - 1) with (len "[@" + (len k + 0)) by (unfold len; cbn; lia).
    rewrite index_app_r by lia. rewrite index_app_r by lia. reflexivity. }
  assert (Hsep : LastIndexAny raw "@" = 1).
  { unfold LastIndexAny, raw. rewrite lastIndexAny_app, lastIndexAny_app.
    rewrite (lastIndexAny_absent "@" k) by assumption. reflexivity. }
  rewrite H0, Hlast, H1, Hsep. cbn.
  destruct (Z.ltb_spec (len raw) 4); [lia|]. reflexivity.
Qed.

Lemma ToStringArray_named_sep (k v ky : string) (c : ascii) :
  c <> "@"%char ->
  ToStringArray {| rawKey := "[@" +:+ k +:+ "@" +:+ String c "]"; val := v; key := ky |}
  = Ok (Split v (string_of_byte c)).
Proof.
  intros Hc.
  unfold ToStringArray, _ARRAY_TAG, _COMPOSITE_LEFT, _COMPOSITE_RIGHT, _DEFAULT_SEP.
  cbn [rawKey val].
  set (raw := "[@" +:+ k +:+ "@" +:+ String c "]").
  assert (Hlen : len raw = len k + 5).
  { unfold raw. rewrite !len_app. unfold len. cbn. lia. }
  pose proof (len_nonneg k) as Hk.
  assert (H0 : @index error raw 0 = Ok "["%char) by reflexivity.
  assert (H1 : @index error raw 1 = Ok "@"%char) by reflexivity.
  assert (Hlast : @index error raw (len raw - 1) = Ok "]"%char).
  { rewrite Hlen. unfold raw.
    replace (len k + 5 - 1) with (len "[@" + (len k + 2)) by (unfold len; cbn; lia).
    rewrite index_app_r by lia. rewrite index_app_r by lia. reflexivity. }
  assert (Hsep : LastIndexAny raw "@" = len k + 2).
  { unfold LastIndexAny, raw. rewrite lastIndexAny_app, lastIndexAny_app.
    rewrite app_String, app_empty.
    cbn [lastIndexAny inb]. rewrite Ascii.eqb_refl. cbn [orb].
    destruct (Ascii.eqb_spec c "@"); [contradiction|]. cbn. unfold len at 1. cbn. lia. }
  assert (Hc' : @index error raw (len k + 2 + 1) = Ok c).
  { unfold raw.
    replace (len k + 2 + 1) with (len "[@" + (len k + 1)) by (unfold len; cbn; lia).
    rewrite index_app_r by lia. rewrite index_app_r by lia. reflexivity. }
  rewrite H0, Hlast, H1, Hsep, Hc'. cbn.
  destruct (Z.ltb_spec (len raw) 4); [lia|].
  destruct (Z.eqb_spec (len k + 2) (-1)); [lia|].
  destruct (Z.eqb_spec (len k + 2) 1); [lia|].
  destruct (Z.eqb_spec (len k + 2) (len raw - 3)); [|lia].
  reflexivity.
Qed.

(** Outside the empty raw key, a raw key that does not match the
    composite-array grammar is refused with the "not an array" error. *)
Lemma ToStringArray_not_array (item : Item) :
  rawKey item <> EmptyString -> compositeArrayKey (rawKey item) = false ->
  ToStringArray item = Err (ErrNotArray (rawKey item)).
Proof.
  destruct item as [raw v ky]. cbn [rawKey]. intros Hne Hg.
  unfold ToStringArray, compositeArrayKey in *. cbn [rawKey val].
  destruct raw as [|c0 raw]; [congruence|]. clear Hne.
  change (@index error (String c0 raw) 0) with (@Ok error _ c0). cbn [bind].
  unfold neqb, _COMPOSITE_LEFT, _COMPOSITE_RIGHT, _ARRAY_TAG.
  cbn [String.get] in Hg.
  destruct (Ascii.eqb_spec c0 "[") as [->|_]; cbn [negb]; [|reflexivity].
  rewrite index_last.
  destruct (lastByte (String "[" raw)) as [cl|] eqn:Hlb.
  2:{ destruct (lastByte_String "[" raw) as [d Hd]. congruence. }
  cbn [bind]. destruct (Ascii.eqb_spec cl "]") as [->|_]; cbn [negb]; [|reflexivity].
  destruct raw as [|c1 raw].
  { (* one byte cannot be both brackets *) discriminate Hlb. }
  change (@index error (String "[" (String c1 raw)) 1) with (@Ok error _ c1). cbn [bind].
  cbn [String.get] in Hg.
  destruct (Ascii.eqb c1 "@"); cbn [negb]; [|reflexivity].
  cbn [andb] in Hg. cbn [bind].
  assert (Hlt : (len (String "[" (String c1 raw)) <? 4) = true).
  { apply Z.ltb_lt. apply Nat.leb_gt in Hg. unfold len. lia. }
  rewrite Hlt. reflexivity.
Qed.

Lemma ToStringArray_not_array_witness :
  ToStringArray {| rawKey := "[@]"; val := "1 2"; key := "[@]" |}
  = Err (ErrNotArray "[@]").
Proof.
  apply (ToStringArray_not_array {| rawKey := "[@]"; val := "1 2"; key := "[@]" |});
    [discriminate | reflexivity].
Defined.

(** C3, at the empty raw key: the guard of [ToStringArray] reads byte 0
    before it tests the length, so the access panics where the grammar
    asks for the "not an array" error.  The item is one that [Parse]
    builds, from a line whose key is empty. *)
Theorem C3_ToStringArray_empty_key_panics :
  let conf := fst (Parse (New "conf") ": v") in
  snd (Parse (New "conf") ": v") = Ok tt
  /\ GetItem conf "" = Ok {| rawKey := ""; val := "v"; key := "" |}
  /\ compositeArrayKey "" = false
  /\ GetStringArray conf "" = Panic
  /\ forall v ky, ToStringArray {| rawKey := ""; val := v; key := ky |} = Panic.
Proof.
  cbv zeta. repeat split; vm_compute; reflexivity.
Qed.

End LegacyFacts.

(** ** The state-machine revision of the parser *)

Section StateMachineFacts.

Import StateMachine.

Lemma ReadBytes_length (buf : string) (delim : ascii) :
  forall b rest eof, ReadBytes buf delim = (b, rest, eof) ->
  (String.length rest <= String.length buf)%nat
  /\ (eof = false -> (String.length rest < String.length buf)%nat).
Proof.
  induction buf as [|c buf IH]; intros b rest eof; cbn [ReadBytes].
  - intros [= <- <- <-]. split; [reflexivity | discriminate].
  - destruct (Ascii.eqb c delim).
    + intros [= <- <- <-]. cbn [String.length]. split; intros; lia.
    + destruct (ReadBytes buf delim) as [[l r] e]. intros [= <- <- <-].
      destruct (IH l r e eq_refl) as [H1 H2]. cbn [String.length].
      split; [lia|]. intros He. specialize (H2 He). lia.
Qed.

Lemma ReadBytes_absent (buf : string) (delim : ascii) :
  contains delim buf = false -> ReadBytes buf delim = (buf, EmptyString, true).
Proof.
  induction buf as [|c buf IH]; cbn [contains ReadBytes]; [reflexivity|].
  intros H. apply orb_false_iff in H as [Hc Hb]. rewrite Hc, (IH Hb). reflexivity.
Qed.

(** The loop of [Parse] ends: [turns m] turns are enough from [m]. *)
Lemma run_enough (fuel : nat) :
  forall m, (turns m <= fuel)%nat -> exists r, run fuel m = Some r.
Proof.
  induction fuel as [|fuel IH]; intros m Hm.
  - exfalso. unfold turns in Hm. destruct (curState m); lia.
  - cbn [run]. unfold step. unfold turns in Hm.
    destruct (curState m) eqn:Hst.
    + destruct (err m); eauto.
    + destruct (ReadBytes (unread m) _KV_SEP) as [[b rest] eof] eqn:Hrb.
      destruct (ReadBytes_length _ _ _ _ _ Hrb) as [Hle Hlt].
      apply IH. unfold turns. cbn [curState unread].
      destruct eof; cbn [andb].
      * destruct (isSpaceBuf b); lia.
      * specialize (Hlt eq_refl). lia.
    + destruct (extraceString (parseBuf m)) as [k| |]; cbn [bind]; eauto.
      destruct (ReadBytes (unread m) _NEWLINE) as [[b rest] eof] eqn:Hrb.
      destruct (ReadBytes_length _ _ _ _ _ Hrb) as [Hle Hlt].
      apply IH. unfold turns. cbn [curState unread].
      destruct ((eof && negb (isSpaceBuf b)) || negb eof); lia.
    + destruct (extraceString (parseBuf m)) as [v| |]; cbn [bind]; eauto.
      apply IH. unfold turns. cbn [curState unread]. lia.
    + destruct (Legacy.parseKey (key m)) as [k| |]; eauto.
      apply IH. unfold turns. cbn [curState unread]. lia.
    + eauto.
Qed.

(** In the state-machine revision [Parse] always returns; when what is
    left to read at the start of a round holds no [:] and is not blank (a
    dangling key at the end of the input), it returns the error of the
    reader, [io.EOF], and stores nothing more. *)
Theorem StateMachine_dangling_key_is_an_error :
  (forall text, exists r, Parse text = Some r)
  /\ (forall m fuel,
        curState m = _PARSE_START ->
        contains _KV_SEP (unread m) = false ->
        isSpaceBuf (unread m) = false ->
        exists m', run (S (S fuel)) m = Some (m', Err EOF) /\ items m' = items m)
  /\ snd <$> Parse ("item1: valu" +:+ newline +:+ "item1jfak") = Some (Err EOF).
Proof.
  split; [|split].
  - intros text. apply run_enough. reflexivity.
  - intros m fuel Hst Hk Hsp. cbn [run]. unfold step at 1. rewrite Hst.
    rewrite (ReadBytes_absent _ _ Hk), Hsp. cbn [andb].
    unfold step. cbn [curState err]. eexists. split; reflexivity.
  - vm_compute. reflexivity.
Qed.

Lemma StateMachine_dangling_key_witness :
  exists m',
    run 2 {| unread := "item1jfak"; parseBuf := " valu" +:+ newline; err := false;
             key := "item1"; valStr := "valu";
             items := {[ "item1" := {| Legacy.rawKey := "item1"; Legacy.val := "valu";
                                       Legacy.key := "item1" |} ]};
             curState := _PARSE_START |}
    = Some (m', Err EOF)
    /\ items m' = {[ "item1" := {| Legacy.rawKey := "item1"; Legacy.val := "valu";
                                   Legacy.key := "item1" |} ]}.
Proof.
  exact (proj1 (proj2 StateMachine_dangling_key_is_an_error)
           {| unread := "item1jfak"; parseBuf := " valu" +:+ newline; err := false;
              key := "item1"; valStr := "valu";
              items := {[ "item1" := {| Legacy.rawKey := "item1"; Legacy.val := "valu";
                                        Legacy.key := "item1" |} ]};
              curState := _PARSE_START |} O eq_refl eq_refl eq_refl).
Defined.

(** In the state-machine revision a line without [:] that is followed by
    a line with one is read as the start of that line's key: the text
    [foo / bar: 1] is accepted, with one item whose key holds the
    newline. *)
Lemma StateMachine_merges_lines :
  match Parse ("foo" +:+ newline +:+ "bar: 1" +:+ newline) with
  | Some (m, r) =>
      r = Ok tt
      /\ items m = {[ "foo" +:+ newline +:+ "bar" :=
                        {| Legacy.rawKey := "foo" +:+ newline +:+ "bar";
                           Legacy.val := "1";
                           Legacy.key := "foo" +:+ newline +:+ "bar" |} ]}
  | None => False
  end.
Proof. vm_compute. split; reflexivity. Qed.

End StateMachineFacts.

(** ** The parser of the current revision *)

Section ParserFacts.

Import Current.
Local Open Scope list_scope.

Lemma lastByte_cons (c d : ascii) (s : string) :
  lastByte (String c (String d s)) = lastByte (String d s).
Proof. unfold lastByte. cbn [String.length]. rewrite !Nat.sub_1_r. reflexivity. Qed.

Lemma TrimRight_last (s cs : string) (c : ascii) :
  lastByte (TrimRight s cs) = Some c -> inb c cs = false.
Proof.
  induction s as [|d s IH]; cbn [TrimRight]; [discriminate|].
  destruct (TrimRight s cs) as [|e r] eqn:Hr.
  - destruct (inb d cs) eqn:Hd; [discriminate|].
    intros [= <-]. exact Hd.
  - rewrite lastByte_cons. exact IH.
Qed.

Lemma Trim_last (s cs : string) (c : ascii) :
  lastByte (Trim s cs) = Some c -> inb c cs = false.
Proof. apply TrimRight_last. Qed.

Lemma app_assoc_byte (seg s : string) (c : ascii) :
  (seg +:+ String c EmptyString) +:+ s = seg +:+ String c s.
Proof.
  induction seg as [|d seg IH]; [reflexivity|].
  rewrite !app_String. now rewrite IH.
Qed.

Lemma app_empty_r (s : string) : s +:+ EmptyString = s.
Proof. induction s as [|c s IH]; [reflexivity|]. rewrite app_String. now rewrite IH. Qed.

Lemma genSplit_no_cut (sep s seg : string) :
  genSplit sep s O (Some O) seg = [seg +:+ s].
Proof.
  revert seg. induction s as [|c s IH]; intros seg; cbn [genSplit].
  - now rewrite app_empty_r.
  - now rewrite IH, app_assoc_byte.
Qed.

Lemma HasPrefix_empty (s : string) : HasPrefix s EmptyString = true.
Proof. destruct s; reflexivity. Qed.

Lemma genSplit_one_cut (c : ascii) (s seg : string) :
  genSplit (String c EmptyString) s O (Some 1%nat) seg
  = if contains c s then [seg +:+ before c s; after c s] else [seg +:+ s].
Proof.
  revert seg. induction s as [|d s IH]; intros seg.
  - cbn. now rewrite app_empty_r.
  - cbn [genSplit HasPrefix contains before after].
    rewrite HasPrefix_empty.
    destruct (Ascii.eqb d c) eqn:Hd; cbn [andb orb].
    + cbn [String.length Nat.sub fmap option_fmap option_map Nat.pred].
      rewrite genSplit_no_cut. rewrite app_empty_r. reflexivity.
    + rewrite IH. destruct (contains c s); now rewrite app_assoc_byte.
Qed.

Lemma SplitN_two (c : ascii) (s : string) :
  SplitN s (String c EmptyString) 2
  = if contains c s then [before c s; after c s] else [s].
Proof. unfold SplitN. cbn. apply genSplit_one_cut. Qed.

Lemma slice_middle {E} (c : ascii) (s : string) :
  s <> EmptyString ->
  @slice E (String c s) 1 (len (String c s) - 1)
  = Ok (String.substring 1 (String.length (String c s) - 2) (String c s)).
Proof.
  intros Hs. unfold slice. rewrite len_String.
  assert (0 < len s).
  { destruct s; [congruence|]. rewrite len_String. pose proof (len_nonneg s). lia. }
  destruct (Z.leb_spec 0 1); [|lia].
  destruct (Z.leb_spec 1 (len s + 1 - 1)); [|lia].
  destruct (Z.leb_spec (len s + 1 - 1) (len s + 1)); [|lia].
  cbn [andb]. f_equal. f_equal. unfold len in *. cbn [String.length]. lia.
Qed.

Lemma len_eqb_0 (c : ascii) (s : string) : (len (String c s) =? 0) = false.
Proof. apply Z.eqb_neq. rewrite len_String. pose proof (len_nonneg s). lia. Qed.

(** [parseLine] reads a line as the grammar of the format does. *)
Lemma parseLine_classify (conf : Conf) (line : string) :
  parseLine conf line = applyLine conf (classify line).
Proof.
  unfold parseLine, classify.
  destruct (Trim line _SPACE_CHARS) as [|c0 t] eqn:Ht; [reflexivity|].
  rewrite len_eqb_0, index_last.
  destruct (lastByte_String c0 t) as [cl Hcl]. rewrite Hcl. cbn [bind].
  assert (Hnl : Ascii.eqb cl _NEWLINE = false).
  { rewrite <- Ht in Hcl. apply Trim_last in Hcl.
    unfold _SPACE_CHARS in Hcl. cbn [inb] in Hcl.
    apply orb_false_iff in Hcl as [_ Hcl]. apply orb_false_iff in Hcl as [_ Hcl].
    apply orb_false_iff in Hcl as [Hcl _]. exact Hcl. }
  rewrite Hnl. cbn [bind].
  change (@index error (String c0 t) 0) with (@Ok error _ c0). cbn [bind].
  unfold _COMMENT_TAG. destruct (Ascii.eqb c0 "#") eqn:Hc; [reflexivity|].
  unfold isSection.
  change (@index error (String c0 t) 0) with (@Ok error _ c0). cbn [bind].
  unfold _SECTION_LEFT, _SECTION_RIGHT.
  destruct (Ascii.eqb_spec c0 "[") as [->|Hc0]; cbn [andb].
  - rewrite index_last, Hcl. cbn [bind].
    destruct (Ascii.eqb_spec cl "]") as [->|Hne].
    + rewrite bool_decide_eq_true_2 by reflexivity.
      assert (Hn : t <> EmptyString).
      { intros ->. discriminate Hcl. }
      rewrite (slice_middle "[" t Hn). cbn [bind]. reflexivity.
    + rewrite bool_decide_eq_false_2 by congruence.
      unfold _KV_SEP. rewrite SplitN_two.
      destruct (contains ":" (String "[" t)); [|reflexivity].
      destruct (Trim (after ":" (String "[" t)) _SPACE_CHARS) eqn:Hv; [reflexivity|].
      rewrite len_eqb_0. reflexivity.
  - unfold _KV_SEP. rewrite SplitN_two.
    destruct (contains ":" (String c0 t)); [|reflexivity].
    destruct (Trim (after ":" (String c0 t)) _SPACE_CHARS) eqn:Hv; [reflexivity|].
    rewrite len_eqb_0. reflexivity.
Qed.

Lemma confInv_ext conf c (f g : string -> gmap string Item) :
  (forall n, f n = g n) -> confInv conf c f -> confInv conf c g.
Proof.
  intros Hfg [Hc Hh Hi Hf Hg]. split; try assumption.
  - intros n a Hn. rewrite <- Hfg. now apply Hh.
  - intros n Hn. rewrite <- Hfg. now apply Hf.
Qed.

Lemma confInv_New path : confInv (New path) _GLOBAL (fun _ => ∅).
Proof.
  split; unfold New; cbn [sections cur heap].
  - exists O. split; [apply lookup_singleton_eq | reflexivity].
  - intros n a Hn. apply lookup_singleton_Some in Hn as [_ <-]. reflexivity.
  - intros n1 n2 a H1 H2.
    apply lookup_singleton_Some in H1 as [<- _].
    apply lookup_singleton_Some in H2 as [<- _]. reflexivity.
  - reflexivity.
  - rewrite lookup_singleton_eq. eauto.
Qed.

Lemma confInv_addSection conf c f n :
  confInv conf c f -> sections conf !! n = None ->
  confInv (addSection conf n) n f.
Proof.
  intros [Hc Hh Hi Hf Hg] Hn. split; unfold addSection; cbn [sections cur heap].
  - exists (length (heap conf)). split; [apply lookup_insert_eq | reflexivity].
  - intros m a Hm. destruct (decide (n = m)) as [<-|Hne].
    + rewrite lookup_insert_eq in Hm. injection Hm as <-.
      rewrite (Hf n Hn). rewrite lookup_app_r by lia.
      now rewrite Nat.sub_diag.
    + rewrite lookup_insert_ne in Hm by assumption.
      pose proof (Hh m a Hm) as Ha.
      rewrite lookup_app_l; [assumption|]. now apply lookup_lt_Some in Ha.
  - intros n1 n2 a H1 H2.
    destruct (decide (n = n1)) as [<-|N1]; destruct (decide (n = n2)) as [<-|N2];
      [reflexivity| | |].
    + rewrite lookup_insert_eq in H1. injection H1 as <-.
      rewrite lookup_insert_ne in H2 by assumption.
      apply Hh, lookup_lt_Some in H2. lia.
    + rewrite lookup_insert_eq in H2. injection H2 as <-.
      rewrite lookup_insert_ne in H1 by assumption.
      apply Hh, lookup_lt_Some in H1. lia.
    + rewrite lookup_insert_ne in H1, H2 by assumption. eapply Hi; eassumption.
  - intros m Hm. apply lookup_insert_None in Hm as [Hm _]. now apply Hf.
  - destruct (decide (n = _GLOBAL)) as [->|Hne].
    + rewrite lookup_insert_eq. eauto.
    + now rewrite lookup_insert_ne.
Qed.

Lemma confInv_store conf c f k v :
  confInv conf c f ->
  exists conf', store conf (cur conf) k v = Ok conf'
    /\ confInv conf' c (fun n => if String.eqb c n then <[k := v]> (f n) else f n).
Proof.
  intros [(a & Hca & Hcur) Hh Hi Hf Hg]. rewrite Hcur. cbn [store].
  eexists. split; [reflexivity|].
  pose proof (Hh c a Hca) as Ha.
  split; cbn [sections cur heap].
  - exists a. split; assumption.
  - intros n b Hn. destruct (String.eqb_spec c n) as [<-|Hne].
    + rewrite Hca in Hn. injection Hn as <-. unfold deref. rewrite Ha. cbn [default].
      apply list_lookup_insert_eq. now apply lookup_lt_Some in Ha.
    + rewrite list_lookup_insert_ne; [now apply Hh|].
      intros <-. apply Hne. eapply Hi; eassumption.
  - assumption.
  - intros n Hn. destruct (String.eqb_spec c n) as [<-|Hne]; [congruence|].
    now apply Hf.
  - assumption.
Qed.

(** Reading lines never panics, and a successful run leaves in every
    registered section exactly the items declared under its name. *)
Lemma _parse_refines (lines : list string) :
  forall conf c f, confInv conf c f ->
  match _parse conf lines with
  | (conf', Ok _) =>
      exists c', confInv conf' c' (fun n => declared lines c n (f n))
  | (_, Err _) => True
  | (_, Panic) => False
  end.
Proof.
  induction lines as [|line rest IH]; intros conf c f Hinv; cbn [_parse declared].
  - exists c. exact Hinv.
  - rewrite parseLine_classify.
    destruct (classify line) as [| |n|k v| |t] eqn:Hk; cbn [applyLine].
    + apply IH. exact Hinv.
    + apply IH. exact Hinv.
    + destruct (sections conf !! n) eqn:Hn; [exact I|].
      apply (IH _ n f). now apply (confInv_addSection conf c).
    + destruct (confInv_store conf c f k {| key := k; val := v |} Hinv)
        as (conf' & -> & Hinv').
      apply (IH _ _ _ Hinv').
    + exact I.
    + exact I.
Qed.

Lemma _parse_app (l1 l2 : list string) (conf : Conf) :
  _parse conf (l1 ++ l2)
  = match _parse conf l1 with
    | (conf', Ok _) => _parse conf' l2
    | r => r
    end.
Proof.
  revert conf. induction l1 as [|l l1 IH]; intros conf; cbn [_parse app].
  - reflexivity.
  - destruct (parseLine conf l); [apply IH | reflexivity | reflexivity].
Qed.

(** A successful run keeps every registered name. *)
Lemma _parse_keeps_sections (lines : list string) :
  forall conf conf' n, _parse conf lines = (conf', Ok tt) ->
  is_Some (sections conf !! n) -> is_Some (sections conf' !! n).
Proof.
  induction lines as [|line rest IH]; intros conf conf' n; cbn [_parse].
  - now intros [= <-].
  - rewrite parseLine_classify.
    destruct (classify line) as [| |m|k v| |t]; cbn [applyLine]; try discriminate;
      try (now apply IH).
    + destruct (sections conf !! m) eqn:Hm; [discriminate|].
      intros H Hn. eapply IH; [exact H|]. cbn.
      destruct (decide (m = n)) as [->|Hne].
      * rewrite lookup_insert_eq. eauto.
      * now rewrite lookup_insert_ne.
    + destruct (cur conf); cbn [store]; [|discriminate].
      intros H Hn. eapply IH; [exact H|]. exact Hn.
Qed.

Lemma Parse_New fs path text :
  fs path = Some text ->
  Parse fs (New path)
  = match _parse (New path) (bufio.ReadLines text) with
    | (conf', Ok _) => (SetGlobalSection conf', Ok tt)
    | (conf', r) => (conf', r)
    end.
Proof. intros H. unfold Parse. cbn [filePath New]. now rewrite H. Qed.

Lemma _parse_header_registers pre h mid name conf conf' :
  classify h = Header name ->
  _parse conf (pre ++ h :: mid) = (conf', Ok tt) ->
  is_Some (sections conf' !! name).
Proof.
  intros Hh. rewrite _parse_app.
  destruct (_parse conf pre) as [c0 [[]| |]]; try discriminate.
  cbn [_parse]. rewrite parseLine_classify, Hh. cbn [applyLine].
  destruct (sections c0 !! name) eqn:Hn; [discriminate|].
  intros H. eapply _parse_keeps_sections; [exact H|].
  unfold addSection. cbn [sections]. rewrite lookup_insert_eq. eauto.
Qed.

(** C5: when two lines of the text are section headers with the same name,
    [Parse] returns an error, whatever stands between and after them; the
    error names the duplicate section as soon as the lines before the
    second header are read without error. *)
Theorem C5_duplicate_section_is_an_error
    (fs : string -> option string) (path text : string)
    (pre mid post : list string) (h1 h2 name : string) :
  fs path = Some text ->
  bufio.ReadLines text = pre ++ h1 :: mid ++ h2 :: post ->
  classify h1 = Header name ->
  classify h2 = Header name ->
  exists conf e,
    Parse fs (New path) = (conf, Err e)
    /\ (snd (_parse (New path) (pre ++ h1 :: mid)) = Ok tt ->
        e = ErrSectionExist name).
Proof.
  intros Hfs Hlines H1 H2. rewrite (Parse_New fs path text Hfs), Hlines.
  replace (pre ++ h1 :: mid ++ h2 :: post) with ((pre ++ h1 :: mid) ++ h2 :: post)
    by (rewrite <- app_assoc; reflexivity).
  rewrite _parse_app.
  pose proof (_parse_refines (pre ++ h1 :: mid) _ _ _ (confInv_New path)) as Hr.
  destruct (_parse (New path) (pre ++ h1 :: mid)) as [c1 [[]|e|]] eqn:Hp1;
    [| |contradiction].
  - pose proof (_parse_header_registers _ _ _ _ _ _ H1 Hp1) as [a Ha].
    cbn [_parse]. rewrite parseLine_classify, H2. cbn [applyLine]. rewrite Ha.
    exists c1, (ErrSectionExist name). split; [reflexivity|]. reflexivity.
  - exists c1, e. split; [reflexivity|]. cbn [snd]. discriminate.
Qed.

Lemma C5_duplicate_section_witness :
  exists conf e,
    Parse (fun _ => Some ("[S]" +:+ newline +:+ "a: 1" +:+ newline +:+ "[S]"
                          +:+ newline +:+ "b: 2"))
          (New "conf") = (conf, Err e)
    /\ (snd (_parse (New "conf") ([] ++ ("[S]" +:+ newline) :: ["a: 1" +:+ newline]))
        = Ok tt ->
        e = ErrSectionExist "S").
Proof.
  exact (C5_duplicate_section_is_an_error
           (fun _ => Some ("[S]" +:+ newline +:+ "a: 1" +:+ newline +:+ "[S]"
                           +:+ newline +:+ "b: 2"))
           "conf" ("[S]" +:+ newline +:+ "a: 1" +:+ newline +:+ "[S]" +:+ newline +:+ "b: 2")
           [] ["a: 1" +:+ newline] ["b: 2"]
           ("[S]" +:+ newline) ("[S]" +:+ newline) "S"
           eq_refl eq_refl eq_refl eq_refl).
Defined.

Lemma classify_NoSeparator (l t : string) :
  t = Trim l _SPACE_CHARS ->
  t <> EmptyString ->
  String.get 0 t <> Some "#"%char ->
  ~ (String.get 0 t = Some "["%char /\ lastByte t = Some "]"%char) ->
  contains ":" t = false ->
  classify l = NoSeparator t.
Proof.
  intros -> Hne Hc Hs Hk. unfold classify.
  destruct (Trim l _SPACE_CHARS) as [|c0 t]; [congruence|].
  cbn [String.get] in Hc, Hs.
  destruct (Ascii.eqb_spec c0 "#") as [->|_]; [congruence|].
  destruct (Ascii.eqb_spec c0 "[") as [->|_]; cbn [andb].
  - rewrite bool_decide_eq_false_2 by (intros H; apply Hs; now split).
    now rewrite Hk.
  - now rewrite Hk.
Qed.

(** A line that, once trimmed, is not empty, is no comment and no
    section header, and holds no [:], makes [Parse] return an error, also
    when it is the last line of the text and has no newline; the error
    cites the trimmed line as soon as the lines before it are read without
    error. *)
Lemma line_without_separator_is_an_error
    (fs : string -> option string) (path text : string)
    (pre post : list string) (l t : string) :
  fs path = Some text ->
  bufio.ReadLines text = pre ++ l :: post ->
  t = Trim l _SPACE_CHARS ->
  t <> EmptyString ->
  String.get 0 t <> Some "#"%char ->
  ~ (String.get 0 t = Some "["%char /\ lastByte t = Some "]"%char) ->
  contains ":" t = false ->
  exists conf e,
    Parse fs (New path) = (conf, Err e)
    /\ (snd (_parse (New path) pre) = Ok tt -> e = ErrNeedColon t).
Proof.
  intros Hfs Hlines Ht Hne Hc Hs Hk.
  pose proof (classify_NoSeparator l t Ht Hne Hc Hs Hk) as Hcl.
  rewrite (Parse_New fs path text Hfs), Hlines, _parse_app.
  pose proof (_parse_refines pre _ _ _ (confInv_New path)) as Hr.
  destruct (_parse (New path) pre) as [c1 [[]|e|]] eqn:Hp1; [| |contradiction].
  - cbn [_parse]. rewrite parseLine_classify, Hcl. cbn [applyLine].
    exists c1, (ErrNeedColon t). split; reflexivity.
  - exists c1, e. split; [reflexivity|]. cbn [snd]. discriminate.
Qed.

Lemma classify_EmptyValue (l t : string) :
  t = Trim l _SPACE_CHARS ->
  String.get 0 t <> Some "#"%char ->
  ~ (String.get 0 t = Some "["%char /\ lastByte t = Some "]"%char) ->
  contains ":" t = true ->
  Trim (after ":" t) _SPACE_CHARS = EmptyString ->
  classify l = EmptyValue.
Proof.
  intros -> Hc Hs Hk Hv. unfold classify.
  destruct (Trim l _SPACE_CHARS) as [|c0 t]; [discriminate Hk|].
  cbn [String.get] in Hc, Hs.
  destruct (Ascii.eqb_spec c0 "#") as [->|_]; [congruence|].
  destruct (Ascii.eqb_spec c0 "[") as [->|_]; cbn [andb].
  - rewrite bool_decide_eq_false_2 by (intros H; apply Hs; now split).
    now rewrite Hk, Hv.
  - now rewrite Hk, Hv.
Qed.

(** A line with a key and a [:] but nothing after it than spaces, tabs
    and newlines makes [Parse] return an error, the "empty value" error
    as soon as the lines before it are read without error: the key is
    not stored with an empty string. *)
Theorem empty_value_is_an_error
    (fs : string -> option string) (path text : string)
    (pre post : list string) (l t : string) :
  fs path = Some text ->
  bufio.ReadLines text = pre ++ l :: post ->
  t = Trim l _SPACE_CHARS ->
  String.get 0 t <> Some "#"%char ->
  ~ (String.get 0 t = Some "["%char /\ lastByte t = Some "]"%char) ->
  contains ":" t = true ->
  Trim (after ":" t) _SPACE_CHARS = EmptyString ->
  exists conf e,
    Parse fs (New path) = (conf, Err e)
    /\ (snd (_parse (New path) pre) = Ok tt -> e = ErrEmptyValue).
Proof.
  intros Hfs Hlines Ht Hc Hs Hk Hv.
  pose proof (classify_EmptyValue l t Ht Hc Hs Hk Hv) as Hcl.
  rewrite (Parse_New fs path text Hfs), Hlines, _parse_app.
  pose proof (_parse_refines pre _ _ _ (confInv_New path)) as Hr.
  destruct (_parse (New path) pre) as [c1 [[]|e|]] eqn:Hp1; [| |contradiction].
  - cbn [_parse]. rewrite parseLine_classify, Hcl. cbn [applyLine].
    exists c1, ErrEmptyValue. split; reflexivity.
  - exists c1, e. split; [reflexivity|]. cbn [snd]. discriminate.
Qed.

Lemma empty_value_witness :
  exists conf e,
    Parse (fun _ => Some "item1:  ") (New "conf") = (conf, Err e)
    /\ (snd (_parse (New "conf") []) = Ok tt -> e = ErrEmptyValue).
Proof.
  apply (empty_value_is_an_error (fun _ => Some "item1:  ") "conf" "item1:  "
           [] [] "item1:  " "item1:");
    try reflexivity; try discriminate.
  intros [H _]. discriminate H.
Defined.

(** [Parse] on a fresh configuration never panics: it returns no error
    or an error value. *)
Theorem Parse_returns (fs : string -> option string) (path : string) :
  exists conf r,
    Parse fs (New path) = (conf, r)
    /\ (r = Ok tt \/ exists e, r = Err e).
Proof.
  unfold Parse. cbn [filePath New]. destruct (fs path) as [text|].
  - pose proof (_parse_refines (bufio.ReadLines text) _ _ _ (confInv_New path)) as Hr.
    unfold New in Hr.
    destruct (_parse _ (bufio.ReadLines text)) as [c1 [[]|e|]]; [| |contradiction].
    + eexists _, _. split; [reflexivity|]. now left.
    + eexists _, _. split; [reflexivity|]. right. eauto.
  - eexists _, _. split; [reflexivity|]. right. eauto.
Qed.

Lemma sees_deref conf a :
  cur conf = Some a -> sees conf (deref conf (Some a)).
Proof.
  intros Hc k. unfold HasItem, GetItem. rewrite Hc.
  destruct (deref conf (Some a) !! k) eqn:Hk.
  - now rewrite bool_decide_eq_true_2 by eauto.
  - rewrite bool_decide_eq_false_2; [tauto|]. intros [x Hx]. discriminate.
Qed.

(** C8: after a successful [Parse], the lookups see the items declared
    in the global part of the text; after a successful [Section(S1)] they
    see exactly the items declared under [S1], and after
    [SetGlobalSection()] again exactly the global ones.  [HasItem] and
    [GetItem] return no new state: between two switches the cursor stays
    where it is. *)
Theorem C8_lookups_scoped_to_current_section
    (fs : string -> option string) (path text : string) (conf : Conf) :
  fs path = Some text ->
  Parse fs (New path) = (conf, Ok tt) ->
  let items name := declared (bufio.ReadLines text) _GLOBAL name ∅ in
  sees conf (items _GLOBAL)
  /\ forall S1 conf1,
       Section_ conf S1 = (conf1, Ok tt) ->
       sees conf1 (items S1)
       /\ sees (SetGlobalSection conf1) (items _GLOBAL).
Proof.
  intros Hfs HP items. rewrite (Parse_New fs path text Hfs) in HP.
  pose proof (_parse_refines (bufio.ReadLines text) _ _ _ (confInv_New path)) as Hr.
  destruct (_parse (New path) (bufio.ReadLines text)) as [c1 [[]|e|]];
    [|discriminate|contradiction].
  injection HP as <-. destruct Hr as (c' & [_ Hh _ _ [g Hg]]).
  assert (Hglobal : forall c, sections c = sections c1 -> heap c = heap c1 ->
            sees (SetGlobalSection c) (items _GLOBAL)).
  { intros c Hs Hhp.
    replace (items _GLOBAL) with (deref (SetGlobalSection c) (Some g)).
    - apply sees_deref. unfold SetGlobalSection, setCur. cbn [cur]. now rewrite Hs.
    - unfold deref, SetGlobalSection, setCur. cbn [heap]. rewrite Hhp.
      now rewrite (Hh _ _ Hg). }
  split; [now apply Hglobal|].
  intros S1 conf1. unfold Section_. cbn [sections SetGlobalSection setCur].
  destruct (sections c1 !! S1) as [a|] eqn:Ha; [|discriminate].
  intros [= <-]. split.
  - replace (items S1) with (deref (setCur (SetGlobalSection c1) (Some a)) (Some a)).
    + now apply sees_deref.
    + unfold deref, SetGlobalSection, setCur. cbn [heap]. now rewrite (Hh _ _ Ha).
  - now apply Hglobal.
Qed.

Lemma C8_section_scope_witness :
  let text := "a: 1" +:+ newline +:+ "[S1]" +:+ newline +:+ "b: 2" in
  let conf := fst (Parse (fun _ => Some text) (New "conf")) in
  let conf1 := fst (Section_ conf "S1") in
  HasItem conf "a" = true /\ HasItem conf "b" = false
  /\ HasItem conf1 "a" = false /\ HasItem conf1 "b" = true
  /\ HasItem (SetGlobalSection conf1) "a" = true
  /\ HasItem (SetGlobalSection conf1) "b" = false.
Proof.
  cbv zeta.
  destruct (C8_lookups_scoped_to_current_section
              (fun _ => Some ("a: 1" +:+ newline +:+ "[S1]" +:+ newline +:+ "b: 2"))
              "conf" _ _ eq_refl eq_refl) as [Hg Hs].
  destruct (Hs "S1" _ eq_refl) as [H1 H2].
  refine (conj _ (conj _ (conj _ (conj _ (conj _ _))))).
  - etransitivity; [exact (proj1 (Hg "a")) | vm_compute; reflexivity].
  - etransitivity; [exact (proj1 (Hg "b")) | vm_compute; reflexivity].
  - etransitivity; [exact (proj1 (H1 "a")) | vm_compute; reflexivity].
  - etransitivity; [exact (proj1 (H1 "b")) | vm_compute; reflexivity].
  - etransitivity; [exact (proj1 (H2 "a")) | vm_compute; reflexivity].
  - etransitivity; [exact (proj1 (H2 "b")) | vm_compute; reflexivity].
Defined.

(** C10: [Section(name)] with a name that is not registered returns the
    "no section" error and the configuration as it was, cursor included:
    [HasItem] and [GetItem] answer after the call as they did before. *)
Theorem C10_failed_Section_keeps_cursor (conf : Conf) (name : string) :
  sections conf !! name = None ->
  Section_ conf name = (conf, Err (ErrNoSection name))
  /\ cur (fst (Section_ conf name)) = cur conf
  /\ forall k, HasItem (fst (Section_ conf name)) k = HasItem conf k
             /\ GetItem (fst (Section_ conf name)) k = GetItem conf k.
Proof.
  intros Hn. unfold Section_. rewrite Hn. cbn [fst]. repeat split.
Qed.

Lemma C10_failed_Section_witness :
  let conf := fst (Section_ (fst (Parse (fun _ => Some ("a: 1" +:+ newline +:+ "[S1]"
                                                       +:+ newline +:+ "b: 2"))
                                    (New "conf"))) "S1") in
  Section_ conf "S2" = (conf, Err (ErrNoSection "S2"))
  /\ cur (fst (Section_ conf "S2")) = cur conf
  /\ forall k, HasItem (fst (Section_ conf "S2")) k = HasItem conf k
             /\ GetItem (fst (Section_ conf "S2")) k = GetItem conf k.
Proof.
  cbv zeta. apply C10_failed_Section_keeps_cursor. vm_compute. reflexivity.
Defined.

End ParserFacts.

(** ** Arrays of the current revision *)

Section ArrayFacts.

Import Current.
Local Open Scope list_scope.

Lemma TrimRight_head (s cs : string) (c : ascii) (r : string) :
  TrimRight s cs = String c r -> exists r', s = String c r'.
Proof.
  destruct s as [|d s]; cbn [TrimRight]; [discriminate|].
  destruct (TrimRight s cs); [destruct (inb d cs); [discriminate|]|];
    intros [= <- _]; eauto.
Qed.

Lemma TrimLeft_head (s cs : string) (c : ascii) (r : string) :
  TrimLeft s cs = String c r -> inb c cs = false.
Proof.
  induction s as [|d s IH]; cbn [TrimLeft]; [discriminate|].
  destruct (inb d cs) eqn:Hd; [exact IH|]. now intros [= <- _].
Qed.

Lemma TrimRight_fixed (s cs : string) :
  (forall c, lastByte s = Some c -> inb c cs = false) -> TrimRight s cs = s.
Proof.
  induction s as [|c s IH]; intros H; [reflexivity|]. cbn [TrimRight].
  destruct s as [|d s].
  - cbn [TrimRight]. now rewrite (H c eq_refl).
  - rewrite IH; [reflexivity|]. intros e He. apply H. now rewrite lastByte_cons.
Qed.

(** A trimmed string is not changed by another trim. *)
Lemma Trim_Trim (s cs : string) : Trim (Trim s cs) cs = Trim s cs.
Proof.
  unfold Trim at 1.
  assert (Hl : TrimLeft (Trim s cs) cs = Trim s cs).
  { destruct (Trim s cs) as [|c r] eqn:Ht; [reflexivity|].
    unfold Trim in Ht. destruct (TrimRight_head _ _ _ _ Ht) as [r' Hr'].
    apply TrimLeft_head in Hr'. cbn [TrimLeft]. now rewrite Hr'. }
  rewrite Hl. apply TrimRight_fixed. intros c. apply Trim_last.
Qed.

Lemma appendParts_filter (parts eles : list string) :
  appendParts parts eles
  = eles ++ ((fun p => Trim p _SPACE_CHARS) <$> filter (fun p => p <> EmptyString) parts).
Proof.
  revert eles. induction parts as [|p parts IH]; intros eles; cbn [appendParts].
  - now rewrite app_nil_r.
  - destruct (String.eqb_spec p EmptyString) as [->|Hp].
    + rewrite IH. rewrite filter_cons_False by (intros H; now apply H). reflexivity.
    + rewrite IH, filter_cons_True by assumption.
      rewrite fmap_cons, <- app_assoc. reflexivity.
Qed.

Lemma genSplit_not_nil (sep s : string) (skip : nat) (n : option nat) (seg : string) :
  genSplit sep s skip n seg <> [].
Proof.
  revert skip n seg. induction s as [|c s IH]; intros skip n seg; cbn [genSplit];
    [discriminate|].
  destruct skip; [|apply IH].
  destruct n as [[|n]|]; try apply IH; destruct (HasPrefix _ sep);
    try discriminate; apply IH.
Qed.

Lemma genSplit_concat (c : ascii) (s seg : string) :
  String.concat (String c EmptyString)
    (genSplit (String c EmptyString) s O None seg) = seg +:+ s.
Proof.
  revert seg. induction s as [|d s IH]; intros seg.
  - cbn. now rewrite app_empty_r.
  - cbn [genSplit HasPrefix String.length Nat.sub]. rewrite HasPrefix_empty.
    destruct (Ascii.eqb_spec d c) as [->|Hne]; cbn [andb].
    + cbn [fmap option_fmap option_map].
      pose proof (genSplit_not_nil (String c EmptyString) s O None EmptyString) as Hn.
      specialize (IH EmptyString). rewrite app_empty in IH.
      destruct (genSplit (String c EmptyString) s O None EmptyString) as [|x l];
        [congruence|].
      cbn [String.concat]. cbn [String.concat] in IH. rewrite IH. reflexivity.
    + rewrite IH. apply app_assoc_byte.
Qed.

(** Joining the segments of a split on one byte with that byte gives the
    text back. *)
Theorem Split_concat (c : ascii) (s : string) :
  String.concat (String c EmptyString) (Split s (String c EmptyString)) = s.
Proof. unfold Split. now rewrite genSplit_concat, app_empty. Qed.

(** [ToStringArray] splits the value on the separator in force, leaves
    out the segments that are empty as they come out of the split, and
    returns the others in order, each trimmed of spaces, tabs and
    newlines. *)
Lemma ToStringArray_filter_then_trim (elementSep : ascii) (item : Item) :
  ToStringArray elementSep item
  = (fun p => Trim p _SPACE_CHARS)
      <$> filter (fun p => p <> EmptyString)
            (Split (val item) (string_of_byte elementSep))
  /\ Forall (fun e => Trim e _SPACE_CHARS = e) (ToStringArray elementSep item).
Proof.
  assert (H : ToStringArray elementSep item
              = (fun p => Trim p _SPACE_CHARS)
                  <$> filter (fun p => p <> EmptyString)
                        (Split (val item) (string_of_byte elementSep))).
  { unfold ToStringArray. now rewrite appendParts_filter. }
  split; [exact H|]. rewrite H.
  apply Forall_fmap, Forall_forall. intros p _. cbn. apply Trim_Trim.
Qed.

End ArrayFacts.

(** ** The loader: from a field name to a key *)

Section ResolutionFacts.

Import Current.
Local Open Scope list_scope.








End ResolutionFacts.

(** ** The loader: fields and the cursor *)

Section LoaderFacts.

Import Current.
Local Open Scope list_scope.

Variable elementSep : ascii.
Variable F : Type.
Variable ParseFloat : string -> F + NumError.
Variable toFloat32 : F -> F.
Variable unicodeToLower : string -> string.

Local Abbreviation parseConfigOptName := (Current.parseConfigOptName unicodeToLower).
Local Abbreviation loadField :=
  (Current.loadField elementSep F ParseFloat toFloat32 unicodeToLower).
Local Abbreviation loadFields :=
  (Current.loadFields elementSep F ParseFloat toFloat32 unicodeToLower).
Local Abbreviation Load :=
  (Current.Load elementSep F ParseFloat toFloat32 unicodeToLower).

Lemma loadField_struct (name : string) (fs : Fields F) (conf : Conf) :
  loadField name true (VStruct fs) conf
  = let optName := parseConfigOptName name conf in
    if String.eqb optName EmptyString then (conf, VStruct fs, Ok tt)
    else match loadFields fs (Section_ conf optName).1 with
         | (conf2, fs', Ok _) => (SetGlobalSection conf2, VStruct fs', Ok tt)
         | (conf2, fs', r) => (conf2, VStruct fs', r)
         end.
Proof. reflexivity. Qed.

Lemma loadFields_cons (name : string) (canSet : bool) (v : Value F)
    (rest : Fields F) (conf : Conf) :
  loadFields (FCons name canSet v rest) conf
  = match loadField name canSet v conf with
    | (conf1, v', Ok _) =>
        match loadFields rest conf1 with
        | (conf2, rest', r) => (conf2, FCons name canSet v' rest', r)
        end
    | (conf1, v', r) => (conf1, FCons name canSet v' rest, r)
    end.
Proof. reflexivity. Qed.

Lemma classic_struct (v : Value F) :
  (exists fs, v = VStruct fs) \/ (forall fs, v <> VStruct fs).
Proof. destruct v; eauto; right; intros fs'; discriminate. Qed.

(** A field that is no struct leaves the configuration as it is. *)
Lemma loadField_not_struct (v : Value F) (name : string) (canSet : bool) (conf : Conf) :
  (forall fs, v <> VStruct fs) -> (loadField name canSet v conf).1.1 = conf.
Proof.
  assert (Hassign : forall (c : Conf) (w : Value F) (r : result error (Value F)),
             (match r with
              | Ok w' => (c, w', Ok tt)
              | Err e => (c, w, Err e)
              | Panic => (c, w, Panic)
              end).1.1 = c).
  { intros c w [ | | ]; reflexivity. }
  intros Hv.
  destruct v; cbn [Current.loadField Kind];
    (destruct canSet; cbn [negb]; [|reflexivity]);
    (destruct (String.eqb _ EmptyString); [reflexivity|]);
    repeat (match goal with
            | |- context [if ?b then _ else _] => destruct b
            end);
    try reflexivity; try apply Hassign.
  exfalso. eapply Hv. reflexivity.
Qed.

(** [loadField] and [loadFields] move the cursor and nothing else of the
    configuration. *)
Lemma load_frame :
  (forall v name canSet conf,
      sections (loadField name canSet v conf).1.1 = sections conf
      /\ heap (loadField name canSet v conf).1.1 = heap conf)
  /\ (forall fs conf,
        sections (loadFields fs conf).1.1 = sections conf
        /\ heap (loadFields fs conf).1.1 = heap conf).
Proof.
  apply (Value_Fields_ind F
           (fun v => forall name canSet conf,
                sections (loadField name canSet v conf).1.1 = sections conf
                /\ heap (loadField name canSet v conf).1.1 = heap conf)
           (fun fs => forall conf,
                sections (loadFields fs conf).1.1 = sections conf
                /\ heap (loadFields fs conf).1.1 = heap conf));
    try (intros; rewrite loadField_not_struct by discriminate; split; reflexivity).
  - (* a struct *)
    intros fs IH name canSet conf.
    destruct canSet; [|split; reflexivity].
    rewrite loadField_struct. cbv zeta.
    destruct (String.eqb _ EmptyString); [split; reflexivity|].
    specialize (IH (Section_ conf (parseConfigOptName name conf)).1).
    assert (Hsec : sections (Section_ conf (parseConfigOptName name conf)).1 = sections conf
                   /\ heap (Section_ conf (parseConfigOptName name conf)).1 = heap conf).
    { unfold Section_. destruct (sections conf !! _); split; reflexivity. }
    destruct (loadFields fs (Section_ conf (parseConfigOptName name conf)).1)
      as [[c2 fs2] [[]| |]]; cbv beta iota; cbn [fst] in *;
      unfold SetGlobalSection, setCur; cbn [sections heap];
      destruct IH as [-> ->]; exact Hsec.
  - (* no field *)
    intros conf. split; reflexivity.
  - (* a field and the rest *)
    intros name canSet v IHv rest IHrest conf. rewrite loadFields_cons.
    specialize (IHv name canSet conf).
    destruct (loadField name canSet v conf) as [[c1 v1] [[]| |]]; cbv beta iota;
      cbn [fst] in *; try exact IHv.
    specialize (IHrest c1).
    destruct (loadFields rest c1) as [[c2 rest2] r2]; cbv beta iota; cbn [fst] in *.
    destruct IHv as [<- <-]. exact IHrest.
Qed.

(** C9: a field that [loadField] has loaded leaves the cursor on the
    global section when it is a struct field whose name was resolved, and
    where it was otherwise; the sections and their items are as before.
    The loop over the fields hands that configuration to the next field:
    in [Load], where [Parse] has left the cursor on the global section,
    every field is resolved and assigned starting from the global
    section. *)
Theorem C9_cursor_restored_after_struct_field
    (name : string) (canSet : bool) (v v' : Value F) (conf conf' : Conf) :
  loadField name canSet v conf = (conf', v', Ok tt) ->
  sections conf' = sections conf
  /\ heap conf' = heap conf
  /\ ((exists fs, v = VStruct fs) -> parseConfigOptName name conf <> EmptyString ->
      cur conf' = sections conf' !! _GLOBAL)
  /\ (cur conf = sections conf !! _GLOBAL -> cur conf' = sections conf' !! _GLOBAL)
  /\ forall rest,
      loadFields (FCons name canSet v rest) conf
      = (let '(conf2, rest', r) := loadFields rest conf' in
         (conf2, FCons name canSet v' rest', r)).
Proof.
  intros Hload.
  pose proof (proj1 load_frame v name canSet conf) as [Hs Hh].
  rewrite Hload in Hs, Hh. cbn [fst] in Hs, Hh.
  split; [exact Hs|]. split; [exact Hh|].
  assert (Hcur : ((exists fs, v = VStruct fs)
                  /\ parseConfigOptName name conf <> EmptyString
                  /\ cur conf' = sections conf' !! _GLOBAL)
                 \/ ((forall fs, v = VStruct fs -> parseConfigOptName name conf = EmptyString)
                     /\ conf' = conf)).
  { destruct (classic_struct v) as [[fs ->]|Hns].
    - destruct canSet; [|discriminate Hload].
      rewrite loadField_struct in Hload. cbv zeta in Hload.
      destruct (String.eqb_spec (parseConfigOptName name conf) EmptyString) as [He|He].
      + injection Hload as <- _. right. split; [intros _ _; exact He | reflexivity].
      + destruct (loadFields fs (Section_ conf (parseConfigOptName name conf)).1)
          as [[c2 fs2] [[]| |]]; try discriminate Hload.
        injection Hload as <- _. left. split; [eauto|]. split; [exact He|reflexivity].
    - right. split.
      + intros fs ->. exfalso. now apply (Hns fs).
      + pose proof (loadField_not_struct v name canSet conf Hns) as H.
        now rewrite Hload in H. }
  split; [|split].
  - intros [fs ->] Hn. destruct Hcur as [(_ & _ & H)|[H _]]; [exact H|].
    exfalso. apply Hn. now apply (H fs).
  - intros Hg. destruct Hcur as [(_ & _ & H)|[_ ->]]; [exact H|exact Hg].
  - intros rest. rewrite loadFields_cons, Hload. reflexivity.
Qed.

(** C2, on the code: [loadField] drops the error of [conf.Section].  With
    the file [sec: 1 / inner: 7] and a record whose field [Sec] is a
    struct with an integer field [Inner], the name [sec] is resolved as
    an item of the global section, no section [sec] is registered,
    [Section("sec")] fails, and [Load] nevertheless returns no error,
    having filled [Sec.Inner] from the global item [inner]. *)
Theorem C2_Load_ignores_unregistered_section :
  let fs := fun _ : string => Some ("sec: 1" +:+ newline +:+ "inner: 7" +:+ newline) in
  let target :=
    VStruct (FCons "Sec" true
               (VStruct (FCons "Inner" true (VInt reflect.Int 0) FNil)) FNil) in
  let conf := (Parse fs (New "conf")).1 in
  parseConfigOptName "Sec" conf = "sec"
  /\ HasSection conf "sec" = false
  /\ (Section_ conf "sec").2 = Err (ErrNoSection "sec")
  /\ Load fs target "conf"
     = (VStruct (FCons "Sec" true
                   (VStruct (FCons "Inner" true (VInt reflect.Int 7) FNil)) FNil),
        Ok tt).
Proof. cbv zeta. repeat split; vm_compute; reflexivity. Qed.

End LoaderFacts.

Section LoaderExamples.

Import Current.

Lemma C9_two_sections_witness :
  let fs := fun _ : string =>
    Some ("int_val: 1" +:+ newline +:+ "[sec_a]" +:+ newline +:+ "int_val: 7"
          +:+ newline +:+ "[sec_b]" +:+ newline +:+ "int_val: 9") in
  let inner := VStruct (FCons "IntVal" true (VInt reflect.Int 0) FNil) in
  let conf := (Parse fs (New "conf")).1 in
  let after := loadField _DEFAULT_SEP Empty_set noFloat noFloat32 noUnicode "SecA" true inner conf in
  after.1.2 = VStruct (FCons "IntVal" true (VInt reflect.Int 7) FNil)
  /\ cur after.1.1 = sections after.1.1 !! _GLOBAL
  /\ loadFields _DEFAULT_SEP Empty_set noFloat noFloat32 noUnicode
       (FCons "SecA" true inner (FCons "SecB" true inner FNil)) conf
     = (after.1.1,
        FCons "SecA" true (VStruct (FCons "IntVal" true (VInt reflect.Int 7) FNil))
          (FCons "SecB" true (VStruct (FCons "IntVal" true (VInt reflect.Int 9) FNil))
             FNil),
        Ok tt).
Proof.
  cbv zeta.
  set (fs := fun _ : string =>
    Some ("int_val: 1" +:+ newline +:+ "[sec_a]" +:+ newline +:+ "int_val: 7"
          +:+ newline +:+ "[sec_b]" +:+ newline +:+ "int_val: 9")).
  set (inner := VStruct (FCons "IntVal" true (VInt reflect.Int 0) FNil)).
  set (conf := (Parse fs (New "conf")).1).
  set (after := loadField _DEFAULT_SEP Empty_set noFloat noFloat32 noUnicode "SecA" true inner conf).
  destruct (C9_cursor_restored_after_struct_field
              _DEFAULT_SEP Empty_set noFloat noFloat32 noUnicode
              "SecA" true inner after.1.2 conf after.1.1)
    as (_ & _ & Hstruct & _ & Hnext).
  { vm_compute. reflexivity. }
  refine (conj _ (conj _ _)).
  - vm_compute. reflexivity.
  - apply Hstruct; [eexists; reflexivity | vm_compute; discriminate].
  - rewrite Hnext. vm_compute. reflexivity.
Defined.

End LoaderExamples.

(** * More of the code *)

(** ** What a parsed configuration holds *)

Section ParsedConfFacts.

Import Current.
Local Open Scope list_scope.

(** After a successful [Parse] the cursor is on the global section, and
    each registered name leads to the items declared under it. *)
Lemma Parse_holds fs path text conf :
  fs path = Some text ->
  Parse fs (New path) = (conf, Ok tt) ->
  (exists g, sections conf !! _GLOBAL = Some g /\ cur conf = Some g)
  /\ (forall n a, sections conf !! n = Some a ->
        heap conf !! a = Some (declared (bufio.ReadLines text) _GLOBAL n ∅)).
Proof.
  intros Hfs HP. rewrite (Parse_New fs path text Hfs) in HP.
  pose proof (_parse_refines (bufio.ReadLines text) _ _ _ (confInv_New path)) as Hr.
  destruct (_parse (New path) (bufio.ReadLines text)) as [c1 [[]|e|]];
    [|discriminate|contradiction].
  injection HP as <-. destruct Hr as (c' & [_ Hh _ _ [g Hg]]).
  split.
  - exists g. unfold SetGlobalSection, setCur. cbn [sections cur]. now split.
  - intros n a Ha. apply (Hh n a Ha).
Qed.

Lemma deref_Some conf a m : heap conf !! a = Some m -> deref conf (Some a) = m.
Proof. intros H. unfold deref. now rewrite H. Qed.

Lemma classify_KeyValue_stored (line k v : string) :
  classify line = KeyValue k v -> storedItem k {| key := k; val := v |}.
Proof.
  unfold classify.
  destruct (Trim line _SPACE_CHARS) as [|c0 t]; [discriminate|].
  destruct (Ascii.eqb c0 "#"); [discriminate|].
  destruct (Ascii.eqb c0 "[" && bool_decide _); [discriminate|].
  destruct (contains ":" (String c0 t)); [|discriminate].
  destruct (Trim (after ":" (String c0 t)) _SPACE_CHARS) as [|d r] eqn:Hv; [discriminate|].
  intros [= <- <-]. unfold storedItem. cbn [key val].
  split; [reflexivity|]. split; [apply Trim_Trim|].
  split; [rewrite <- Hv; apply Trim_Trim | discriminate].
Qed.

Lemma declared_stored (lines : list string) :
  forall c n acc,
    (forall k item, acc !! k = Some item -> storedItem k item) ->
    forall k item, declared lines c n acc !! k = Some item -> storedItem k item.
Proof.
  induction lines as [|line rest IH]; intros c n acc Hacc; cbn [declared];
    [exact Hacc|].
  destruct (classify line) as [| |m|k v| |t] eqn:Hk; try (apply IH; exact Hacc).
  apply IH. destruct (String.eqb c n); [|exact Hacc].
  intros k' item. destruct (decide (k = k')) as [<-|Hne].
  - rewrite lookup_insert_eq. intros [= <-]. now apply (classify_KeyValue_stored line).
  - rewrite lookup_insert_ne by assumption. apply Hacc.
Qed.

(** In a parsed configuration, on whatever registered section the cursor
    is put, an item that [GetItem] returns for [k] has [k] as its key,
    key and value are trimmed of spaces, tabs and newlines, and the value
    is not empty. *)
Theorem parsed_items_are_trimmed
    (fs : string -> option string) (path text : string) (conf conf1 : Conf)
    (S1 k : string) (item : Item) :
  fs path = Some text ->
  Parse fs (New path) = (conf, Ok tt) ->
  Section_ conf S1 = (conf1, Ok tt) ->
  GetItem conf1 k = Ok item ->
  storedItem k item.
Proof.
  intros Hfs HP HS HG.
  destruct (Parse_holds fs path text conf Hfs HP) as (_ & Hh).
  unfold Section_ in HS. destruct (sections conf !! S1) as [a|] eqn:Ha; [|discriminate].
  injection HS as <-. unfold GetItem in HG. cbn [cur setCur] in HG.
  rewrite (deref_Some (setCur conf (Some a)) a _ (Hh _ _ Ha)) in HG.
  destruct (declared (bufio.ReadLines text) _GLOBAL S1 ∅ !! k) as [it|] eqn:Hk;
    [|discriminate].
  injection HG as ->.
  apply (declared_stored (bufio.ReadLines text) _GLOBAL S1 ∅); [|exact Hk].
  intros k' it'. rewrite lookup_empty. discriminate.
Qed.

Lemma parsed_items_witness :
  storedItem "k" {| key := "k"; val := "v w" |}.
Proof.
  apply (parsed_items_are_trimmed
           (fun _ => Some ("[S1]" +:+ newline +:+ "  k : v w " +:+ tab))
           "conf" ("[S1]" +:+ newline +:+ "  k : v w " +:+ tab)
           (Parse (fun _ => Some ("[S1]" +:+ newline +:+ "  k : v w " +:+ tab))
                  (New "conf")).1
           (Section_ (Parse (fun _ => Some ("[S1]" +:+ newline +:+ "  k : v w " +:+ tab))
                            (New "conf")).1 "S1").1
           "S1" "k"); reflexivity.
Defined.

Lemma _parse_registers (lines : list string) :
  forall conf conf', _parse conf lines = (conf', Ok tt) ->
  NoDup (headers lines)
  /\ (forall n, n ∈ headers lines -> sections conf !! n = None)
  /\ (forall n, is_Some (sections conf' !! n)
                <-> is_Some (sections conf !! n) \/ n ∈ headers lines).
Proof.
  induction lines as [|line rest IH]; intros conf conf'; cbn [_parse headers].
  - intros [= <-]. split; [constructor|]. split.
    + intros n Hn. inversion Hn.
    + intros n. split; [tauto|]. intros [H|H]; [exact H|inversion H].
  - rewrite parseLine_classify.
    destruct (classify line) as [| |m|k v| |t]; cbn [applyLine]; try discriminate;
      try (apply IH).
    + destruct (sections conf !! m) eqn:Hm; [discriminate|].
      intros H. destruct (IH _ _ H) as (Hnd & Hnone & Hiff).
      unfold addSection in Hnone, Hiff. cbn [sections] in Hnone, Hiff.
      assert (Hm' : m ∉ headers rest).
      { intros Hin. specialize (Hnone m Hin). rewrite lookup_insert_eq in Hnone.
        discriminate. }
      split; [now constructor|]. split.
      * intros n Hn. apply elem_of_cons in Hn as [->|Hn]; [exact Hm|].
        specialize (Hnone n Hn). apply lookup_insert_None in Hnone. tauto.
      * intros n. rewrite Hiff, elem_of_cons. destruct (decide (m = n)) as [<-|Hne].
        -- rewrite lookup_insert_eq. split; [intros _; right; now left|eauto].
        -- rewrite lookup_insert_ne by assumption. split; [tauto|].
           intros [H1|[->|H3]]; [tauto|contradiction|tauto].
    + destruct (cur conf); cbn [store]; [|discriminate].
      intros H. apply (IH _ _ H).
Qed.

(** A text that [Parse] accepts names each of its sections once, none of
    them by the reserved name of the global section, and the sections
    that [HasSection] knows afterwards are the global one and those
    named by the headers of the text. *)
Theorem parsed_sections_are_the_headers
    (fs : string -> option string) (path text : string) (conf : Conf) :
  fs path = Some text ->
  Parse fs (New path) = (conf, Ok tt) ->
  NoDup (_GLOBAL :: headers (bufio.ReadLines text))
  /\ forall n, HasSection conf n = true
               <-> n ∈ _GLOBAL :: headers (bufio.ReadLines text).
Proof.
  intros Hfs HP. rewrite (Parse_New fs path text Hfs) in HP.
  destruct (_parse (New path) (bufio.ReadLines text)) as [c1 [[]|e|]] eqn:Hp;
    try discriminate.
  injection HP as <-.
  destruct (_parse_registers _ _ _ Hp) as (Hnd & Hnone & Hiff).
  unfold New in Hnone, Hiff. cbn [sections] in Hnone, Hiff.
  split.
  - constructor; [|exact Hnd]. intros Hin. specialize (Hnone _ Hin).
    rewrite lookup_singleton_eq in Hnone. discriminate.
  - intros n. unfold HasSection, SetGlobalSection, setCur. cbn [sections].
    rewrite elem_of_cons. specialize (Hiff n).
    destruct (decide (_GLOBAL = n)) as [<-|Hne].
    + rewrite lookup_singleton_eq in Hiff.
      destruct (sections c1 !! _GLOBAL) eqn:Hs; [tauto|].
      exfalso. destruct (proj2 Hiff) as [x Hx]; [left; eauto|discriminate].
    + rewrite lookup_singleton_ne in Hiff by assumption.
      destruct (sections c1 !! n) eqn:Hs.
      * split; [intros _|reflexivity]. destruct (proj1 Hiff) as [[x Hx]|H]; eauto.
        discriminate.
      * split; [discriminate|]. intros [->|Hin]; [contradiction|].
        destruct (proj2 Hiff) as [x Hx]; [now right|discriminate].
Qed.

Lemma parsed_sections_witness :
  NoDup (_GLOBAL :: headers (bufio.ReadLines
           ("a: 1" +:+ newline +:+ "[S1]" +:+ newline +:+ "[ S2 ]")))
  /\ forall n,
      HasSection (Parse (fun _ => Some ("a: 1" +:+ newline +:+ "[S1]" +:+ newline
                                        +:+ "[ S2 ]")) (New "conf")).1 n = true
      <-> n ∈ _GLOBAL :: headers (bufio.ReadLines
                ("a: 1" +:+ newline +:+ "[S1]" +:+ newline +:+ "[ S2 ]")).
Proof.
  exact (parsed_sections_are_the_headers
           (fun _ => Some ("a: 1" +:+ newline +:+ "[S1]" +:+ newline +:+ "[ S2 ]"))
           "conf" ("a: 1" +:+ newline +:+ "[S1]" +:+ newline +:+ "[ S2 ]")
           _ eq_refl eq_refl).
Defined.

Lemma keys_of_stored (l : list (string * Item)) :
  Forall (fun p => key p.2 = p.1) l -> key <$> l.*2 = l.*1.
Proof.
  induction 1 as [|[k item] l Hk _ IH]; [reflexivity|].
  cbn in *. now rewrite Hk, IH.
Qed.

(** In a parsed configuration, on whatever registered section the cursor
    is put, [Items] lists each item of the section once: the keys of the
    list are pairwise distinct, a key is in the list exactly when
    [HasItem] holds for it, and [GetItem] on the key of a listed item
    returns that item. *)
Theorem Items_lists_each_item_once
    (fs : string -> option string) (path text : string) (conf conf1 : Conf)
    (S1 : string) :
  fs path = Some text ->
  Parse fs (New path) = (conf, Ok tt) ->
  Section_ conf S1 = (conf1, Ok tt) ->
  NoDup (key <$> Items conf1)
  /\ (forall k, k ∈ key <$> Items conf1 <-> HasItem conf1 k = true)
  /\ (forall item, item ∈ Items conf1 -> GetItem conf1 (key item) = Ok item).
Proof.
  intros Hfs HP HS.
  destruct (Parse_holds fs path text conf Hfs HP) as (_ & Hh).
  unfold Section_ in HS. destruct (sections conf !! S1) as [a|] eqn:Ha; [|discriminate].
  injection HS as <-.
  unfold Items, HasItem, GetItem. cbn [cur setCur].
  rewrite (deref_Some (setCur conf (Some a)) a _ (Hh _ _ Ha)).
  set (m := declared (bufio.ReadLines text) _GLOBAL S1 ∅).
  assert (Hst : forall k item, m !! k = Some item -> storedItem k item).
  { apply declared_stored. intros k' it'. rewrite lookup_empty. discriminate. }
  assert (Hkeys : key <$> (map_to_list m).*2 = (map_to_list m).*1).
  { apply keys_of_stored, Forall_forall. intros [k item] Hin.
    apply elem_of_map_to_list in Hin. apply (Hst k item Hin). }
  split; [|split].
  - rewrite Hkeys. apply NoDup_fst_map_to_list.
  - intros k. rewrite Hkeys, list_elem_of_fmap. split.
    + intros ([k' item] & -> & Hin). apply elem_of_map_to_list in Hin.
      cbn. now rewrite Hin.
    + destruct (m !! k) as [item|] eqn:Hk; [|discriminate]. intros _.
      exists (k, item). split; [reflexivity|]. now apply elem_of_map_to_list.
  - intros item Hin. apply list_elem_of_fmap in Hin as ([k it] & -> & Hin).
    apply elem_of_map_to_list in Hin. cbn [snd].
    destruct (Hst k it Hin) as (-> & _). now rewrite Hin.
Qed.

Lemma Items_witness :
  let conf := (Parse (fun _ => Some ("a:b" +:+ newline +:+ "c:d" +:+ newline +:+ "e:f"
                                      +:+ newline +:+ "g:h")) (New "conf")).1 in
  let conf1 := (Section_ conf _GLOBAL).1 in
  NoDup (key <$> Items conf1)
  /\ (forall k, k ∈ key <$> Items conf1 <-> HasItem conf1 k = true)
  /\ (forall item, item ∈ Items conf1 -> GetItem conf1 (key item) = Ok item).
Proof.
  cbv zeta.
  exact (Items_lists_each_item_once
           (fun _ => Some ("a:b" +:+ newline +:+ "c:d" +:+ newline +:+ "e:f"
                           +:+ newline +:+ "g:h"))
           "conf" ("a:b" +:+ newline +:+ "c:d" +:+ newline +:+ "e:f" +:+ newline +:+ "g:h")
           _ _ _GLOBAL eq_refl eq_refl eq_refl).
Defined.

(** A line that, once trimmed, begins with [[] and ends with []] is read
    as a section header whether or not it holds a [:]: it registers the
    trimmed text between the brackets as a section, or fails when that
    name is registered, and stores no item.  So is an array line whose
    value ends with a closing bracket. *)
Theorem bracketed_line_is_a_header
    (conf : Conf) (line t : string) :
  t = Trim line _SPACE_CHARS ->
  String.get 0 t = Some "["%char ->
  lastByte t = Some "]"%char ->
  parseLine conf line
  = let name := Trim (String.substring 1 (String.length t - 2) t) _SPACE_CHARS in
    match sections conf !! name with
    | Some _ => Err (ErrSectionExist name)
    | None => Ok (addSection conf name)
    end.
Proof.
  intros -> H0 Hl. rewrite parseLine_classify. unfold classify.
  destruct (Trim line _SPACE_CHARS) as [|c0 t]; [discriminate|].
  cbn [String.get] in H0. injection H0 as ->.
  change (Ascii.eqb "[" "#") with false. change (Ascii.eqb "[" "[") with true.
  cbv iota. cbn [andb]. rewrite bool_decide_eq_true_2 by assumption.
  reflexivity.
Qed.

Lemma bracketed_line_witness :
  parseLine (New "conf") ("[@a]: [1]" +:+ newline)
  = Ok (addSection (New "conf") "@a]: [1").
Proof.
  exact (bracketed_line_is_a_header (New "conf") ("[@a]: [1]" +:+ newline) "[@a]: [1]"
           eq_refl eq_refl eq_refl).
Defined.

End ParsedConfFacts.

(** ** Arrays of the current revision, continued *)

Section ArrayElementFacts.

Import Current.
Local Open Scope list_scope.

Lemma contains_app_byte (c d : ascii) (s : string) :
  contains c s = false -> Ascii.eqb d c = false ->
  contains c (s +:+ String d EmptyString) = false.
Proof.
  intros Hs Hd. induction s as [|e s IH].
  - rewrite app_empty. cbn. now rewrite Hd.
  - rewrite app_String. cbn in *. apply orb_false_iff in Hs as [He Hs].
    now rewrite He, IH.
Qed.

Lemma genSplit_segments (c : ascii) (s seg : string) :
  contains c seg = false ->
  Forall (fun p => contains c p = false)
    (genSplit (String c EmptyString) s O None seg).
Proof.
  revert seg. induction s as [|d s IH]; intros seg Hseg.
  - cbn. now constructor.
  - cbn [genSplit HasPrefix String.length Nat.sub]. rewrite HasPrefix_empty.
    destruct (Ascii.eqb d c) eqn:Hd; cbn [andb].
    + constructor; [exact Hseg|]. now apply IH.
    + apply IH. now apply contains_app_byte.
Qed.

Lemma contains_TrimLeft (c : ascii) (s cs : string) :
  contains c s = false -> contains c (TrimLeft s cs) = false.
Proof.
  induction s as [|d s IH]; [reflexivity|]. intros H. cbn [TrimLeft].
  destruct (inb d cs); [|exact H]. cbn in H. apply orb_false_iff in H as [_ H].
  now apply IH.
Qed.

Lemma contains_TrimRight (c : ascii) (s cs : string) :
  contains c s = false -> contains c (TrimRight s cs) = false.
Proof.
  induction s as [|d s IH]; [reflexivity|]. intros H. cbn [TrimRight].
  cbn in H. apply orb_false_iff in H as [Hd H]. specialize (IH H).
  destruct (TrimRight s cs) as [|e r].
  - destruct (inb d cs); [reflexivity|]. cbn. now rewrite Hd.
  - cbn [contains]. rewrite Hd. exact IH.
Qed.

Lemma contains_Trim (c : ascii) (s cs : string) :
  contains c s = false -> contains c (Trim s cs) = false.
Proof. intros H. now apply contains_TrimRight, contains_TrimLeft. Qed.

(** With a separator below 0x80, no element that [ToStringArray]
    returns holds the separator byte: with the default separator no
    element holds a space. *)
Theorem ToStringArray_elements_hold_no_separator (elementSep : ascii) (item : Item) :
  (N_of_ascii elementSep < 128)%N ->
  Forall (fun e => contains elementSep e = false) (ToStringArray elementSep item).
Proof.
  intros Hlt. unfold ToStringArray. rewrite appendParts_filter, app_nil_l.
  unfold string_of_byte. apply N.ltb_lt in Hlt. rewrite Hlt.
  apply Forall_fmap.
  pose proof (genSplit_segments elementSep (val item) EmptyString eq_refl) as Hs.
  unfold Split. revert Hs. generalize (genSplit (String elementSep "") (val item) 0 None "").
  intros l Hl. induction Hl as [|p l Hp _ IH]; [constructor|].
  destruct (decide (p <> EmptyString)).
  - rewrite filter_cons_True by assumption. constructor; [|exact IH].
    cbn. now apply contains_Trim.
  - rewrite filter_cons_False by assumption. exact IH.
Qed.

Lemma ToStringArray_no_separator_witness :
  Forall (fun e => contains " " e = false)
    (ToStringArray " " {| key := "k"; val := "ab  c " +:+ tab +:+ "d" |}).
Proof.
  apply (ToStringArray_elements_hold_no_separator " "
           {| key := "k"; val := "ab  c " +:+ tab +:+ "d" |}).
  reflexivity.
Defined.

Lemma ToStringArray_trimmed (elementSep : ascii) (item : Item) :
  Forall (fun e => Trim e _SPACE_CHARS = e) (ToStringArray elementSep item).
Proof.
  unfold ToStringArray. rewrite appendParts_filter, app_nil_l.
  apply Forall_fmap, Forall_forall. intros p _. cbn. apply Trim_Trim.
Qed.

Lemma parseInts_Ok (l : list string) :
  Forall (fun e => Trim e _SPACE_CHARS = e) l ->
  forall vs, parseInts l = Ok vs <-> Forall2 (fun e v => ParseInt e = inl v) l vs.
Proof.
  induction 1 as [|e l He _ IH]; intros vs; cbn [parseInts].
  - split; [intros [= <-]; constructor | intros H; now inversion H].
  - rewrite He. destruct (ParseInt e) as [v|ne] eqn:Hp.
    + destruct (parseInts l) as [ws| |] eqn:Hl; cbn [bind].
      * split.
        -- intros [= <-]. constructor; [exact Hp|]. now apply IH.
        -- intros H. inversion H as [|? w ? ws' Hw Hws]; subst.
           apply IH in Hws. congruence.
      * split; [discriminate|]. intros H. inversion H as [|? w ? ws' Hw Hws]; subst.
        apply IH in Hws. discriminate.
      * split; [discriminate|]. intros H. inversion H as [|? w ? ws' Hw Hws]; subst.
        apply IH in Hws. discriminate.
    + split; [discriminate|]. intros H. inversion H; congruence.
Qed.

Lemma parseInts_Err (l : list string) :
  Forall (fun e => Trim e _SPACE_CHARS = e) l ->
  match parseInts l with
  | Ok _ => True
  | Err e => exists ele ne, ele ∈ l /\ ParseInt ele = inr ne /\ e = WrapErr (ErrNum ne)
  | Panic => False
  end.
Proof.
  induction 1 as [|e l He _ IH]; cbn [parseInts]; [exact I|].
  rewrite He. destruct (ParseInt e) as [v|ne] eqn:Hp.
  - destruct (parseInts l) as [ws|err|]; cbn [bind]; [exact I| |exact IH].
    destruct IH as (ele & ne & Hin & Hpe & ->).
    exists ele, ne. split; [now right|]. now split.
  - exists e, ne. split; [now left|]. now split.
Qed.

(** [ToIntArray] returns one integer for each element of
    [ToStringArray], in order, each what [ParseInt] reads from the
    element; when an element does not read as an integer it returns the
    wrapped error of such an element and no integer at all; it never
    panics. *)
Theorem ToIntArray_all_or_nothing (elementSep : ascii) (item : Item) :
  (forall vs, ToIntArray elementSep item = Ok vs
              <-> Forall2 (fun e v => ParseInt e = inl v)
                    (ToStringArray elementSep item) vs)
  /\ (forall e, ToIntArray elementSep item = Err e ->
        exists ele ne, ele ∈ ToStringArray elementSep item
                       /\ ParseInt ele = inr ne /\ e = WrapErr (ErrNum ne))
  /\ ((exists vs, ToIntArray elementSep item = Ok vs)
      \/ (exists e, ToIntArray elementSep item = Err e)).
Proof.
  pose proof (ToStringArray_trimmed elementSep item) as Ht.
  unfold ToIntArray. split; [|split].
  - now apply parseInts_Ok.
  - intros e He. pose proof (parseInts_Err _ Ht) as H. now rewrite He in H.
  - pose proof (parseInts_Err _ Ht) as H.
    destruct (parseInts (ToStringArray elementSep item)); [eauto|eauto|contradiction].
Qed.

Lemma ToIntArray_witness :
  exists ele ne,
    ele ∈ ToStringArray " " {| key := "k"; val := "1 2x 3" |}
    /\ ParseInt ele = inr ne /\ WrapErr (ErrNum ErrSyntax) = WrapErr (ErrNum ne).
Proof.
  exact (proj1 (proj2 (ToIntArray_all_or_nothing " " {| key := "k"; val := "1 2x 3" |}))
           (WrapErr (ErrNum ErrSyntax)) eq_refl).
Defined.

End ArrayElementFacts.

(** ** The loader, continued *)

Section LoaderAssignFacts.

Import Current.
Local Open Scope list_scope.

Variable elementSep : ascii.
Variable F : Type.
Variable ParseFloat : string -> F + NumError.
Variable toFloat32 : F -> F.
Variable unicodeToLower : string -> string.

Local Abbreviation parseConfigOptName := (Current.parseConfigOptName unicodeToLower).
Local Abbreviation loadField :=
  (Current.loadField elementSep F ParseFloat toFloat32 unicodeToLower).
Local Abbreviation loadFields :=
  (Current.loadFields elementSep F ParseFloat toFloat32 unicodeToLower).
Local Abbreviation Load :=
  (Current.Load elementSep F ParseFloat toFloat32 unicodeToLower).
Local Abbreviation typeOf := (Current.typeOf F).
Local Abbreviation typesOf := (Current.typesOf F).

Lemma SetInt_type (v v' : Value F) (x : Z) :
  SetInt F v x = Ok v' -> typeOf v' = typeOf v.
Proof. destruct v as [k z| | | | |]; try discriminate. destruct k; intros [= <-]; reflexivity. Qed.

Lemma SetFloat_type (v v' : Value F) (x : F) :
  SetFloat F toFloat32 v x = Ok v' -> typeOf v' = typeOf v.
Proof. destruct v as [|k z| | | |]; try discriminate. destruct k; intros [= <-]; reflexivity. Qed.

Lemma SetString_type (v v' : Value F) (x : string) :
  SetString F v x = Ok v' -> typeOf v' = typeOf v.
Proof. destruct v; try discriminate. intros [= <-]; reflexivity. Qed.

Lemma appendAll_type (v v' : Value F) (want : reflect.Kind) (vals : list (Scalar F)) :
  appendAll F v want vals = Ok v' -> typeOf v' = typeOf v.
Proof.
  unfold appendAll. destruct vals as [|x vals]; [now intros [= <-]|].
  destruct v; try discriminate.
  destruct (reflect.eqb (elemKind elem) want && predeclared elem); [|discriminate].
  now intros [= <-].
Qed.

Lemma bind_type {A} (r : result error A) (k : A -> result error (Value F)) (v v' : Value F) :
  (forall a w, k a = Ok w -> typeOf w = typeOf v) ->
  bind r k = Ok v' -> typeOf v' = typeOf v.
Proof. destruct r; cbn [bind]; [eauto|discriminate|discriminate]. Qed.

Lemma loadSliceField_type (elem : reflect.Kind) (opt : string) (v v' : Value F) (conf : Conf) :
  loadSliceField elementSep F ParseFloat elem opt v conf = Ok v' -> typeOf v' = typeOf v.
Proof.
  unfold loadSliceField.
  destruct (isInt elem); [apply bind_type; intros a w; apply appendAll_type|].
  destruct (isFloat elem); [apply bind_type; intros a w; apply appendAll_type|].
  destruct (reflect.eqb elem reflect.String);
    [apply bind_type; intros a w; apply appendAll_type|discriminate].
Qed.

Lemma assign_type (conf : Conf) (v : Value F) (r : result error (Value F)) :
  (forall w, r = Ok w -> typeOf w = typeOf v) ->
  typeOf (match r with
          | Ok w => (conf, w, Ok tt)
          | Err e => (conf, v, Err e)
          | Panic => (conf, v, Panic)
          end).1.2 = typeOf v.
Proof. destruct r; cbn; eauto. Qed.

Lemma loadField_not_struct_type (v : Value F) (name : string) (canSet : bool) (conf : Conf) :
  (forall fs, v <> VStruct fs) -> typeOf (loadField name canSet v conf).1.2 = typeOf v.
Proof.
  intros Hv.
  destruct v; cbn [Current.loadField Kind];
    (destruct canSet; cbn [negb]; [|reflexivity]);
    (destruct (String.eqb _ EmptyString); [reflexivity|]);
    repeat (match goal with
            | |- context [if ?b then _ else _] => destruct b
            end);
    try reflexivity;
    try (apply assign_type; intros w; apply bind_type; intros a w';
         first [apply SetInt_type | apply SetFloat_type | apply SetString_type]);
    try (apply assign_type; intros w; apply loadSliceField_type).
  exfalso. eapply Hv. reflexivity.
Qed.

Lemma load_types :
  (forall v name canSet conf, typeOf (loadField name canSet v conf).1.2 = typeOf v)
  /\ (forall fs conf, typesOf (loadFields fs conf).1.2 = typesOf fs).
Proof.
  apply (Value_Fields_ind F
           (fun v => forall name canSet conf,
                typeOf (loadField name canSet v conf).1.2 = typeOf v)
           (fun fs => forall conf, typesOf (loadFields fs conf).1.2 = typesOf fs));
    try (intros; apply loadField_not_struct_type; discriminate).
  - intros fs IH name canSet conf.
    destruct canSet; [|reflexivity].
    rewrite loadField_struct. cbv zeta.
    destruct (String.eqb _ EmptyString); [reflexivity|].
    specialize (IH (Section_ conf (parseConfigOptName name conf)).1).
    destruct (loadFields fs (Section_ conf (parseConfigOptName name conf)).1)
      as [[c2 fs2] [[]| |]]; cbv beta iota; cbn [fst snd] in *;
      cbn [Current.typeOf]; now rewrite IH.
  - intros conf. reflexivity.
  - intros name canSet v IHv rest IHrest conf. rewrite loadFields_cons.
    specialize (IHv name canSet conf).
    destruct (loadField name canSet v conf) as [[c1 v1] [[]| |]]; cbv beta iota;
      cbn [fst snd] in *; try (cbn [Current.typesOf]; now rewrite IHv).
    specialize (IHrest c1).
    destruct (loadFields rest c1) as [[c2 rest2] r2]; cbv beta iota; cbn [fst snd] in *.
    cbn [Current.typesOf]. now rewrite IHv, IHrest.
Qed.

(** [Load] changes the content of the record and never its type: after
    the call, whatever it returns, the record has the fields it had, with
    their names, kinds and element kinds, at every depth. *)
Theorem Load_keeps_the_type_of_the_record
    (fs : string -> option string) (configObj : Value F) (configFile : string) :
  typeOf (Load fs configObj configFile).1 = typeOf configObj.
Proof.
  unfold Current.Load.
  destruct (Parse fs (New configFile)) as [conf [[]| |]]; try reflexivity.
  destruct configObj; try reflexivity.
  pose proof (proj2 load_types fs0 conf) as H.
  destruct (loadFields fs0 conf) as [[c fields] r]. cbn [fst snd] in *.
  cbn [Current.typeOf]. now rewrite H.
Qed.

Lemma loadField_unresolved (name : string) (v : Value F) (conf : Conf) :
  parseConfigOptName name conf = EmptyString ->
  loadField name true v conf = (conf, v, Ok tt).
Proof. intros H. destruct v; cbn [Current.loadField negb]; rewrite H; reflexivity. Qed.

Lemma loadFields_unresolved (fields : Fields F) (conf : Conf) :
  allSettable F fields = true ->
  (forall name, name ∈ fieldNames F fields -> parseConfigOptName name conf = EmptyString) ->
  loadFields fields conf = (conf, fields, Ok tt).
Proof.
  induction fields as [|name canSet v rest IH].
  - reflexivity.
  - cbn [allSettable fieldNames]. intros Hs Hn.
    apply andb_true_iff in Hs as [-> Hs].
    rewrite loadFields_cons, loadField_unresolved by (apply Hn; now left).
    rewrite IH; [reflexivity|exact Hs|]. intros n Hin. apply Hn. now right.
Qed.

(** A configuration file may be partial: when [Parse] succeeds and the
    name of no field of the record resolves to a key or a section, [Load]
    returns no error and the record as it was. *)
Theorem Load_leaves_unresolved_fields
    (fs : string -> option string) (path text : string) (conf : Conf)
    (fields : Fields F) :
  fs path = Some text ->
  Parse fs (New path) = (conf, Ok tt) ->
  allSettable F fields = true ->
  (forall name, name ∈ fieldNames F fields -> parseConfigOptName name conf = EmptyString) ->
  Load fs (VStruct fields) path = (VStruct fields, Ok tt).
Proof.
  intros _ HP Hs Hn. unfold Current.Load. rewrite HP.
  now rewrite (loadFields_unresolved fields conf Hs Hn).
Qed.

Lemma loadField_VInt (name : string) (k : reflect.Kind) (z : Z) (conf : Conf) :
  isInt k = true ->
  parseConfigOptName name conf <> EmptyString ->
  loadField name true (VInt k z) conf
  = match bind (GetInt conf (parseConfigOptName name conf)) (SetInt F (VInt k z)) with
    | Ok v => (conf, v, Ok tt)
    | Err e => (conf, VInt k z, Err e)
    | Panic => (conf, VInt k z, Panic)
    end.
Proof.
  intros Hk Hn. cbn [Current.loadField Kind negb].
  destruct (String.eqb_spec (parseConfigOptName name conf) EmptyString); [contradiction|].
  now rewrite Hk.
Qed.

Lemma wrap_spec (bits x : Z) :
  0 < bits ->
  - 2 ^ (bits - 1) <= wrap bits x < 2 ^ (bits - 1)
  /\ (wrap bits x - x) mod 2 ^ bits = 0
  /\ (- 2 ^ (bits - 1) <= x < 2 ^ (bits - 1) -> wrap bits x = x).
Proof.
  intros Hb. unfold wrap.
  assert (Hm : 2 ^ bits = 2 * 2 ^ (bits - 1)).
  { replace bits with (Z.succ (bits - 1)) at 1 by lia. apply Z.pow_succ_r. lia. }
  assert (Hh : 0 < 2 ^ (bits - 1)) by (apply Z.pow_pos_nonneg; lia).
  set (h := 2 ^ (bits - 1)) in *. rewrite Hm.
  pose proof (Z.mod_pos_bound (x + h) (2 * h) ltac:(lia)) as Hbd.
  split; [lia|]. split.
  - rewrite (Z.mod_eq (x + h) (2 * h)) by lia.
    replace (x + h - 2 * h * ((x + h) / (2 * h)) - h - x)
      with (- ((x + h) / (2 * h)) * (2 * h)) by lia.
    apply Z.mod_mul. lia.
  - intros Hx. rewrite Z.mod_small by lia. lia.
Qed.

Lemma parseUintLoop_nonneg (s : string) :
  forall n m, 0 <= n -> parseUintLoop s n = inl m -> 0 <= m.
Proof.
  induction s as [|c s IH]; intros n m Hn; cbn [parseUintLoop].
  - now intros [= <-].
  - unfold digit. destruct (_ && _) eqn:Hd; [|discriminate].
    apply andb_true_iff in Hd as [Hd1 Hd2]. apply Z.leb_le in Hd1.
    destruct (_ >=? _); [discriminate|]. destruct (_ >? _); [discriminate|].
    apply IH. lia.
Qed.

Lemma ParseInt_range (s : string) (v : Z) :
  ParseInt s = inl v -> - 2 ^ 63 <= v < 2 ^ 63.
Proof.
  unfold ParseInt. destruct s as [|c s]; [discriminate|].
  set (body := if (_ || _)%bool then s else String c s).
  destruct (ParseUint body) as [un|[]] eqn:Hu; try discriminate.
  assert (0 <= un).
  { unfold ParseUint in Hu. destruct body; [discriminate|].
    eapply parseUintLoop_nonneg; [|exact Hu]. lia. }
  destruct (Ascii.eqb c "-"); cbn [negb andb].
  - destruct (Z.gtb_spec un (2 ^ 63)); [discriminate|]. intros [= <-]. lia.
  - destruct (Z.geb_spec un (2 ^ 63)); [discriminate|]. intros [= <-]. lia.
Qed.

Lemma GetInt_range (conf : Conf) (k : string) (x : Z) :
  GetInt conf k = Ok x -> - 2 ^ 63 <= x < 2 ^ 63.
Proof.
  unfold GetInt, getWith, ToInt. destruct (GetItem conf k) as [item| |]; try discriminate.
  destruct (ParseInt (val item)) as [v|e] eqn:Hp; [|discriminate].
  intros [= <-]. now apply (ParseInt_range (val item)).
Qed.

(** An integer field whose name resolves to a key with an integer value
    [x]: a field of a signed kind of [bits] bits gets [x] when [x] fits,
    and otherwise the value of the signed range that differs from [x] by
    a multiple of [2^bits], with no error; a field of an unsigned kind
    makes the loader panic (it is set with [SetInt]). *)
Theorem loadField_integer_field
    (name : string) (k : reflect.Kind) (z x : Z) (conf : Conf) :
  parseConfigOptName name conf <> EmptyString ->
  GetInt conf (parseConfigOptName name conf) = Ok x ->
  (forall bits, signedBits k = Some bits ->
     exists y,
       loadField name true (VInt k z) conf = (conf, VInt k y, Ok tt)
       /\ - 2 ^ (bits - 1) <= y < 2 ^ (bits - 1)
       /\ (y - x) mod 2 ^ bits = 0
       /\ (- 2 ^ (bits - 1) <= x < 2 ^ (bits - 1) -> y = x))
  /\ (isUint k = true ->
      loadField name true (VInt k z) conf = (conf, VInt k z, Panic)).
Proof.
  intros Hn Hx. pose proof (GetInt_range _ _ _ Hx) as Hr. split.
  - intros bits Hb.
    assert (Hk : isInt k = true) by (destruct k; try discriminate; reflexivity).
    rewrite (loadField_VInt name k z conf Hk Hn), Hx. cbn [bind].
    destruct k; try discriminate; injection Hb as <-; cbn [SetInt].
    + exists x. split; [reflexivity|]. change (64 - 1) with 63.
      rewrite Z.sub_diag, Z.mod_0_l by lia. auto.
    + exists (wrap 8 x). split; [reflexivity|]. apply wrap_spec. lia.
    + exists (wrap 16 x). split; [reflexivity|]. apply wrap_spec. lia.
    + exists (wrap 32 x). split; [reflexivity|]. apply wrap_spec. lia.
    + exists x. split; [reflexivity|]. change (64 - 1) with 63.
      rewrite Z.sub_diag, Z.mod_0_l by lia. auto.
  - intros Hu.
    assert (Hk : isInt k = true) by (destruct k; try discriminate; reflexivity).
    rewrite (loadField_VInt name k z conf Hk Hn), Hx. cbn [bind].
    destruct k; try discriminate; reflexivity.
Qed.

Lemma loadField_VSlice (name : string) (elem : ElemType) (vs : list (Scalar F))
    (conf : Conf) :
  parseConfigOptName name conf <> EmptyString ->
  loadField name true (VSlice elem vs) conf
  = match loadSliceField elementSep F ParseFloat (elemKind elem)
            (parseConfigOptName name conf) (VSlice elem vs) conf with
    | Ok v => (conf, v, Ok tt)
    | Err e => (conf, VSlice elem vs, Err e)
    | Panic => (conf, VSlice elem vs, Panic)
    end.
Proof.
  intros Hn. cbn [Current.loadField Kind negb].
  destruct (String.eqb_spec (parseConfigOptName name conf) EmptyString); [contradiction|].
  reflexivity.
Qed.

(** A slice field whose name resolves to a key: the elements read from
    the value are appended after those the slice holds, for a slice of
    [int64] and for a slice of [string]; for a slice of any other
    integer element type, of another kind or defined from [int64], and
    for a slice of a type defined from [string], the loader panics as
    soon as the value has an element. *)
Theorem loadField_slice_field
    (name : string) (vs : list (Scalar F)) (conf : Conf) :
  parseConfigOptName name conf <> EmptyString ->
  (forall vals,
      GetIntArray elementSep conf (parseConfigOptName name conf) = Ok vals ->
      loadField name true (VSlice int64Elem vs) conf
      = (conf, VSlice int64Elem (vs ++ (SInt <$> vals)), Ok tt))
  /\ (forall vals,
        GetStringArray elementSep conf (parseConfigOptName name conf) = Ok vals ->
        loadField name true (VSlice stringElem vs) conf
        = (conf, VSlice stringElem (vs ++ (SString <$> vals)), Ok tt))
  /\ (forall elem vals,
        isInt (elemKind elem) = true -> elem <> int64Elem -> vals <> [] ->
        GetIntArray elementSep conf (parseConfigOptName name conf) = Ok vals ->
        loadField name true (VSlice elem vs) conf = (conf, VSlice elem vs, Panic))
  /\ (forall elem vals,
        elemKind elem = reflect.String -> elem <> stringElem -> vals <> [] ->
        GetStringArray elementSep conf (parseConfigOptName name conf) = Ok vals ->
        loadField name true (VSlice elem vs) conf = (conf, VSlice elem vs, Panic)).
Proof.
  intros Hn. split; [|split; [|split]].
  - intros vals Hv. rewrite (loadField_VSlice _ _ _ _ Hn). unfold loadSliceField.
    cbn [isInt elemKind int64Elem]. rewrite Hv. cbn [bind]. unfold appendAll.
    destruct vals; [now rewrite app_nil_r|]. reflexivity.
  - intros vals Hv. rewrite (loadField_VSlice _ _ _ _ Hn). unfold loadSliceField.
    cbn [isInt isFloat elemKind stringElem].
    change (reflect.eqb reflect.String reflect.String) with true.
    cbv iota. rewrite Hv. cbn [bind]. unfold appendAll.
    destruct vals; [now rewrite app_nil_r|]. reflexivity.
  - intros elem vals Hi Hne Hvals Hv.
    rewrite (loadField_VSlice _ _ _ _ Hn). unfold loadSliceField.
    rewrite Hi, Hv. cbn [bind]. unfold appendAll.
    destruct vals as [|v vals]; [congruence|]. cbn [fmap list_fmap].
    assert (He : reflect.eqb (elemKind elem) reflect.Int64 && predeclared elem = false).
    { destruct elem as [k p]. cbn [elemKind predeclared]. unfold reflect.eqb.
      destruct (reflect.Kind_eq_dec k reflect.Int64) as [->|]; [|reflexivity].
      destruct p; [|reflexivity]. exfalso. now apply Hne. }
    now rewrite He.
  - intros elem vals Hk Hne Hvals Hv.
    rewrite (loadField_VSlice _ _ _ _ Hn). unfold loadSliceField.
    rewrite Hk. cbn [isInt isFloat].
    change (reflect.eqb reflect.String reflect.String) with true. cbv iota.
    rewrite Hv. cbn [bind]. unfold appendAll.
    destruct vals as [|v vals]; [congruence|]. cbn [fmap list_fmap].
    assert (He : reflect.eqb (elemKind elem) reflect.String && predeclared elem = false).
    { destruct elem as [k p]. cbn [elemKind predeclared] in *. subst k.
      destruct p; [|apply andb_false_r]. exfalso. now apply Hne. }
    now rewrite He.
Qed.

End LoaderAssignFacts.

Section LoaderAssignExamples.

Import Current.
Local Open Scope list_scope.

Lemma Load_unresolved_witness :
  Load _DEFAULT_SEP Empty_set noFloat noFloat32 noUnicode
    (fun _ => Some ("# nothing here" +:+ newline +:+ newline +:+ "other: 1"))
    (VStruct (FCons "Port" true (VInt reflect.Int 80)
                (FCons "Names" true (VSlice stringElem [SString "a"]) FNil)))
    "conf"
  = (VStruct (FCons "Port" true (VInt reflect.Int 80)
                (FCons "Names" true (VSlice stringElem [SString "a"]) FNil)),
     Ok tt).
Proof.
  apply (Load_leaves_unresolved_fields _DEFAULT_SEP Empty_set noFloat noFloat32 noUnicode
           (fun _ => Some ("# nothing here" +:+ newline +:+ newline +:+ "other: 1"))
           "conf" ("# nothing here" +:+ newline +:+ newline +:+ "other: 1")
           (Parse (fun _ => Some ("# nothing here" +:+ newline +:+ newline +:+ "other: 1"))
                  (New "conf")).1);
    try reflexivity.
  intros name Hin. cbn [fieldNames] in Hin.
  apply elem_of_cons in Hin as [->|Hin]; [reflexivity|].
  apply elem_of_cons in Hin as [->|Hin]; [reflexivity|]. inversion Hin.
Defined.

Lemma loadField_integer_witness :
  let conf := (Parse (fun _ => Some "small: 300") (New "conf")).1 in
  (forall bits, signedBits reflect.Int8 = Some bits ->
     exists y,
       loadField _DEFAULT_SEP Empty_set noFloat noFloat32 noUnicode "Small" true
         (VInt reflect.Int8 0) conf = (conf, VInt reflect.Int8 y, Ok tt)
       /\ - 2 ^ (bits - 1) <= y < 2 ^ (bits - 1)
       /\ (y - 300) mod 2 ^ bits = 0
       /\ (- 2 ^ (bits - 1) <= 300 < 2 ^ (bits - 1) -> y = 300))
  /\ (isUint reflect.Int8 = true ->
      loadField _DEFAULT_SEP Empty_set noFloat noFloat32 noUnicode "Small" true
        (VInt reflect.Int8 0) conf = (conf, VInt reflect.Int8 0, Panic)).
Proof.
  cbv zeta.
  apply (loadField_integer_field _DEFAULT_SEP Empty_set noFloat noFloat32 noUnicode
           "Small" reflect.Int8 0 300
           (Parse (fun _ => Some "small: 300") (New "conf")).1).
  - vm_compute. discriminate.
  - vm_compute. reflexivity.
Defined.

Lemma loadField_slice_witness :
  let conf := (Parse (fun _ => Some "ports: 80 443") (New "conf")).1 in
  loadField _DEFAULT_SEP Empty_set noFloat noFloat32 noUnicode "Ports" true
    (VSlice int64Elem [SInt 22]) conf
  = (conf, VSlice int64Elem [SInt 22; SInt 80; SInt 443], Ok tt).
Proof.
  cbv zeta.
  apply (proj1 (loadField_slice_field _DEFAULT_SEP Empty_set noFloat noFloat32 noUnicode
                  "Ports" [SInt 22]
                  (Parse (fun _ => Some "ports: 80 443") (New "conf")).1
                  ltac:(vm_compute; discriminate)) [80; 443]).
  vm_compute. reflexivity.
Defined.

End LoaderAssignExamples.

(** ** Keys of the first revision *)

Section KeyFacts.

Import Legacy.

Lemma get_Some (s : string) (n : nat) :
  (n < String.length s)%nat -> exists c, String.get n s = Some c.
Proof.
  revert n. induction s as [|d s IH]; intros n Hn; cbn in Hn; [lia|].
  destruct n as [|n]; cbn [String.get]; [eauto|]. apply IH. lia.
Qed.

Lemma index_in_range {E} (s : string) (i : Z) :
  0 <= i < len s -> exists c, @index E s i = Ok c /\ String.get (Z.to_nat i) s = Some c.
Proof.
  intros Hi. unfold index. destruct (Z.ltb_spec i 0); [lia|].
  destruct (get_Some s (Z.to_nat i)) as [c Hc]; [unfold len in Hi; lia|].
  rewrite Hc. eauto.
Qed.

Lemma slice_in_range {E} (s : string) (lo hi : Z) :
  0 <= lo <= hi -> hi <= len s ->
  @slice E s lo hi = Ok (String.substring (Z.to_nat lo) (Z.to_nat (hi - lo)) s).
Proof.
  intros H1 H2. unfold slice.
  destruct (Z.leb_spec 0 lo); [|lia]. destruct (Z.leb_spec lo hi); [|lia].
  destruct (Z.leb_spec hi (len s)); [|lia]. reflexivity.
Qed.

Lemma substring_whole (s t : string) :
  String.substring 0 (String.length s) (s +:+ t) = s.
Proof.
  induction s as [|c s IH]; [destruct t; reflexivity|].
  rewrite app_String. cbn [String.length String.substring]. now rewrite IH.
Qed.

Lemma substring_skip (a s : string) (n m : nat) :
  String.substring (String.length a + n) m (a +:+ s) = String.substring n m s.
Proof.
  induction a as [|c a IH]; [reflexivity|].
  rewrite app_String. cbn [String.length Nat.add String.substring]. exact IH.
Qed.

Lemma contains_get (c : ascii) (s : string) (n : nat) (d : ascii) :
  contains c s = false -> String.get n s = Some d -> Ascii.eqb d c = false.
Proof.
  revert n. induction s as [|e s IH]; intros n Hc; [discriminate|].
  cbn in Hc. apply orb_false_iff in Hc as [He Hs].
  destruct n as [|n]; cbn [String.get]; [now intros [= <-]|]. now apply IH.
Qed.

(** [parseKey] returns a key for every text. *)
Lemma parseKey_total (k : string) : exists k', parseKey k = Ok k'.
Proof.
  unfold parseKey. destruct (Z.ltb_spec (len k) 4) as [|Hlen]; [eauto|].
  destruct (@index_in_range error k 0 ltac:(lia)) as (c0 & -> & _).
  destruct (@index_in_range error k (len k - 1) ltac:(lia)) as (cl & Hcl & _).
  destruct (@index_in_range error k 1 ltac:(lia)) as (c1 & Hc1 & _).
  destruct (@index_in_range error k (len k - 3) ltac:(lia)) as (c & Hc & _).
  cbn [bind]. rewrite Hcl, Hc1.
  assert (Hrest : exists k', (let! c := index k (len k - 3) in
                     if negb (len k =? 4) && isTag c then slice k 2 (len k - 3)
                     else slice k 2 (len k - 1)) = @Ok error _ k').
  { rewrite Hc. cbn [bind]. destruct (Z.eqb_spec (len k) 4); cbn [negb andb].
    - rewrite slice_in_range by lia. eauto.
    - destruct (isTag c); rewrite slice_in_range by lia; eauto. }
  destruct (neqb c0 _COMPOSITE_LEFT); cbn [bind]; [eauto|].
  destruct (neqb cl _COMPOSITE_RIGHT); cbn [bind]; [eauto|].
  destruct (negb (isTag c1)); [eauto|exact Hrest].
Qed.

Lemma parseKey_named_sep (body : string) (c : ascii) :
  parseKey ("[@" +:+ body +:+ "@" +:+ String c "]") = Ok body.
Proof.
  unfold parseKey. set (raw := "[@" +:+ body +:+ "@" +:+ String c "]").
  assert (Hlen : len raw = len body + 5).
  { unfold raw. rewrite !len_app. unfold len. cbn. lia. }
  pose proof (len_nonneg body) as Hb.
  destruct (Z.ltb_spec (len raw) 4); [lia|].
  assert (H0 : @index error raw 0 = Ok "["%char) by reflexivity.
  assert (H1 : @index error raw 1 = Ok "@"%char) by reflexivity.
  assert (Hl : @index error raw (len raw - 1) = Ok "]"%char).
  { rewrite Hlen. unfold raw.
    replace (len body + 5 - 1) with (len "[@" + (len body + 2)) by (unfold len; cbn; lia).
    rewrite index_app_r by lia. rewrite index_app_r by lia. reflexivity. }
  assert (H3 : @index error raw (len raw - 3) = Ok "@"%char).
  { rewrite Hlen. unfold raw.
    replace (len body + 5 - 3) with (len "[@" + (len body + 0)) by (unfold len; cbn; lia).
    rewrite index_app_r by lia. rewrite index_app_r by lia. reflexivity. }
  rewrite H0, Hl, H1, H3. cbn.
  destruct (Z.eqb_spec (len raw) 4); [lia|]. cbn [negb].
  rewrite slice_in_range by lia. f_equal.
  replace (Z.to_nat (len raw - 3 - 2)) with (String.length body) by (unfold len in *; lia).
  unfold raw. change (Z.to_nat 2) with (String.length "[@" + 0)%nat.
  rewrite substring_skip. apply substring_whole.
Qed.

Lemma parseKey_default_sep (body : string) :
  body <> EmptyString -> contains "@" body = false -> contains "$" body = false ->
  parseKey ("[@" +:+ body +:+ "]") = Ok body.
Proof.
  intros Hne Hat Hdl. unfold parseKey. set (raw := "[@" +:+ body +:+ "]").
  assert (Hlen : len raw = len body + 3).
  { unfold raw. rewrite !len_app. unfold len. cbn. lia. }
  assert (Hb : 0 < len body).
  { destruct body; [congruence|]. rewrite len_String. pose proof (len_nonneg body). lia. }
  destruct (Z.ltb_spec (len raw) 4); [lia|].
  assert (H0 : @index error raw 0 = Ok "["%char) by reflexivity.
  assert (H1 : @index error raw 1 = Ok "@"%char) by reflexivity.
  assert (Hl : @index error raw (len raw - 1) = Ok "]"%char).
  { rewrite Hlen. unfold raw.
    replace (len body + 3 - 1) with (len "[@" + (len body + 0)) by (unfold len; cbn; lia).
    rewrite index_app_r by lia. rewrite index_app_r by lia. reflexivity. }
  assert (Hres : @slice error raw 2 (len raw - 1) = Ok body).
  { rewrite slice_in_range by lia. f_equal.
    replace (Z.to_nat (len raw - 1 - 2)) with (String.length body) by (unfold len in *; lia).
    unfold raw. change (Z.to_nat 2) with (String.length "[@" + 0)%nat.
    rewrite substring_skip. apply substring_whole. }
  rewrite H0, Hl, H1. cbn [bind neqb negb isTag orb].
  unfold _COMPOSITE_LEFT, _COMPOSITE_RIGHT, _ARRAY_TAG, _MAP_TAG. cbn [Ascii.eqb Bool.eqb andb negb orb bind].
  destruct (Z.eqb_spec (len raw) 4) as [H4|H4].
  - destruct (@index_in_range error raw (len raw - 3) ltac:(lia)) as (c & -> & _).
    cbn [bind negb andb]. exact Hres.
  - assert (Hc : exists c, @index error raw (len raw - 3) = Ok c
                           /\ String.get (Z.to_nat (len body - 2)) body = Some c).
    { rewrite Hlen. unfold raw.
      replace (len body + 3 - 3) with (len "[@" + (len body - 2)) by (unfold len; cbn; lia).
      rewrite index_app_r by lia.
      destruct (@index_in_range error (body +:+ "]") (len body - 2)) as (c & Hc & Hg).
      { rewrite len_app. change (len "]") with 1. lia. }
      exists c. split; [exact Hc|].
      destruct (get_Some body (Z.to_nat (len body - 2))) as [d Hd]; [unfold len in *; lia|].
      rewrite Hd. f_equal.
      assert (Hd' : String.get (Z.to_nat (len body - 2)) (body +:+ "]") = Some d).
      { clear -Hd. revert Hd. generalize (Z.to_nat (len body - 2)).
        induction body as [|e body IH]; intros n; [discriminate|].
        rewrite app_String. destruct n; cbn [String.get]; [trivial|apply IH]. }
      congruence. }
    destruct Hc as (c & -> & Hg). cbn [bind negb andb].
    unfold isTag, _ARRAY_TAG, _MAP_TAG.
    rewrite (contains_get "@" body _ c Hat Hg), (contains_get "$" body _ c Hdl Hg).
    cbn [orb]. exact Hres.
Qed.

(** [parseKey] gives the key under which an item is stored: it never
    panics; the key of [[@body@c]] is [body], whatever the byte [c]; the
    key of [[@body]] is [body] when [body] is not empty and holds no
    marker; a text shorter than four bytes, or not between brackets, or
    without a marker in second place, is its own key. *)
Theorem parseKey_strips_the_markers :
  (forall k, exists k', parseKey k = Ok k')
  /\ (forall body c, parseKey ("[@" +:+ body +:+ "@" +:+ String c "]") = Ok body)
  /\ (forall body, body <> EmptyString ->
        contains "@" body = false -> contains "$" body = false ->
        parseKey ("[@" +:+ body +:+ "]") = Ok body)
  /\ (forall k,
        (String.length k < 4)%nat
        \/ String.get 0 k <> Some "["%char
        \/ lastByte k <> Some "]"%char
        \/ (String.get 1 k <> Some "@"%char /\ String.get 1 k <> Some "$"%char) ->
        parseKey k = Ok k).
Proof.
  split; [exact parseKey_total|]. split; [exact parseKey_named_sep|].
  split; [exact parseKey_default_sep|].
  intros k Hplain. unfold parseKey.
  destruct (Z.ltb_spec (len k) 4) as [|Hlen]; [reflexivity|].
  destruct Hplain as [Hs|Hplain]; [unfold len in Hlen; lia|].
  destruct k as [|c0 k]; [unfold len in Hlen; cbn in Hlen; lia|].
  change (@index error (String c0 k) 0) with (@Ok error _ c0). cbn [bind].
  unfold neqb, _COMPOSITE_LEFT, _COMPOSITE_RIGHT.
  destruct (Ascii.eqb_spec c0 "[") as [->|]; cbn [negb]; [|reflexivity].
  destruct Hplain as [H0|Hplain]; [cbn in H0; congruence|].
  rewrite index_last. destruct (lastByte_String "[" k) as [cl Hcl]. rewrite Hcl.
  cbn [bind]. destruct (Ascii.eqb_spec cl "]") as [->|]; cbn [negb]; [|reflexivity].
  destruct Hplain as [Hl|[Ha Hd]]; [congruence|].
  destruct k as [|c1 k]; [rewrite len_String in Hlen; unfold len in Hlen; cbn in Hlen; lia|].
  change (@index error (String "[" (String c1 k)) 1) with (@Ok error _ c1). cbn [bind].
  cbn [String.get] in Ha, Hd. unfold isTag, _ARRAY_TAG, _MAP_TAG.
  destruct (Ascii.eqb_spec c1 "@") as [->|]; [congruence|].
  destruct (Ascii.eqb_spec c1 "$") as [->|]; [congruence|]. reflexivity.
Qed.

Lemma parseKey_witness : parseKey "[@IntArray]" = Ok "IntArray".
Proof.
  exact (proj1 (proj2 (proj2 parseKey_strips_the_markers)) "IntArray"
           ltac:(discriminate) eq_refl eq_refl).
Defined.

End KeyFacts.

(** ** The state-machine revision, continued *)

Section StateMachineValueFacts.

Import StateMachine.

Lemma run_more (n : nat) :
  forall m r p, run n m = Some r -> run (n + p) m = Some r.
Proof.
  induction n as [|n IH]; intros m r p; [discriminate|].
  cbn [run Nat.add]. destruct (step m) as [[m'|[]]| |]; auto.
Qed.

Lemma ReadBytes_found (k rest : string) (d : ascii) :
  contains d k = false ->
  ReadBytes (k +:+ String d rest) d = (k +:+ String d EmptyString, rest, false).
Proof.
  induction k as [|c k IH]; intros Hk.
  - rewrite !app_empty. cbn [ReadBytes]. now rewrite Ascii.eqb_refl.
  - cbn in Hk. apply orb_false_iff in Hk as [Hc Hk].
    rewrite !app_String. cbn [ReadBytes]. now rewrite Hc, (IH Hk).
Qed.

Lemma extraceString_delimited {E} (s : string) (d : ascii) :
  @extraceString E (s +:+ String d EmptyString) = Ok (Trim s _SPACE_CHARS).
Proof.
  unfold extraceString. rewrite slice_in_range.
  - cbn [bind]. do 2 f_equal. rewrite len_app.
    replace (Z.to_nat (len s + len (String d EmptyString) - 1 - 0)) with (String.length s)
      by (unfold len; cbn; lia).
    apply substring_whole.
  - rewrite len_app. pose proof (len_nonneg s). unfold len at 2. cbn. lia.
  - lia.
Qed.

Lemma extraceString_undelimited {E} (s : string) :
  s <> EmptyString ->
  @extraceString E s
  = Ok (Trim (String.substring 0 (String.length s - 1) s) _SPACE_CHARS).
Proof.
  intros Hs. unfold extraceString.
  assert (0 < len s).
  { destruct s; [congruence|]. rewrite len_String. pose proof (len_nonneg s). lia. }
  rewrite slice_in_range by lia. cbn [bind]. do 3 f_equal. unfold len. lia.
Qed.

(** One key and its value, then the end of the text: the six turns of
    the loop. *)
Lemma run_one_pair (k rest b val key' : string) (eof : bool) :
  contains _KV_SEP k = false ->
  ReadBytes rest _NEWLINE = (b, EmptyString, eof) ->
  (eof && negb (isSpaceBuf b)) || negb eof = true ->
  @extraceString error b = Ok val ->
  Legacy.parseKey (Trim k _SPACE_CHARS) = Ok key' ->
  exists m,
    Parse (k +:+ String _KV_SEP rest) = Some (m, Ok tt)
    /\ items m = {[ key' := {| Legacy.rawKey := Trim k _SPACE_CHARS;
                              Legacy.val := val; Legacy.key := key' |} ]}.
Proof.
  intros Hk Hrb Hnext Hval Hkey. unfold Parse.
  assert (Hturns : turns (start (k +:+ String _KV_SEP rest))
                   = (6 + (4 * String.length (k +:+ String _KV_SEP rest) - 4))%nat).
  { unfold turns, start. cbn [curState unread]. rewrite length_app. cbn [String.length]. lia. }
  rewrite Hturns.
  set (raw := Trim k _SPACE_CHARS) in *.
  set (it := {| Legacy.rawKey := raw; Legacy.val := val; Legacy.key := key' |}).
  set (m1 := {| unread := rest; parseBuf := k +:+ String _KV_SEP EmptyString; err := false;
                key := EmptyString; valStr := EmptyString; items := ∅;
                curState := _PARSE_FOUND_KEY |}).
  set (m2 := {| unread := EmptyString; parseBuf := b; err := eof; key := raw;
                valStr := EmptyString; items := ∅; curState := _PARSE_FOUND_VAL |}).
  set (m3 := {| unread := EmptyString; parseBuf := b; err := eof; key := raw;
                valStr := val; items := ∅; curState := _PARSE_FOUND_KV |}).
  set (m4 := {| unread := EmptyString; parseBuf := b; err := eof; key := key';
                valStr := val; items := <[key' := it]> ∅; curState := _PARSE_START |}).
  set (m5 := {| unread := EmptyString; parseBuf := EmptyString; err := true; key := key';
                valStr := val; items := <[key' := it]> ∅; curState := _PARSE_DONE |}).
  assert (H0 : step (start (k +:+ String _KV_SEP rest)) = Ok (inl m1)).
  { unfold step, start. cbn [curState unread key valStr items].
    now rewrite (ReadBytes_found k rest _KV_SEP Hk). }
  assert (H1 : step m1 = Ok (inl m2)).
  { unfold step, m1. cbn [curState unread parseBuf key valStr items].
    rewrite extraceString_delimited. cbn [bind]. now rewrite Hrb, Hnext. }
  assert (H2 : step m2 = Ok (inl m3)).
  { unfold step, m2. cbn [curState unread parseBuf key valStr items err].
    now rewrite Hval. }
  assert (H3 : step m3 = Ok (inl m4)).
  { unfold step, m3. cbn [curState unread parseBuf key valStr items err].
    now rewrite Hkey. }
  assert (H4 : step m4 = Ok (inl m5)) by reflexivity.
  assert (H5 : step m5 = Ok (inr tt)) by reflexivity.
  exists m5. split.
  - apply run_more. cbn [run]. now rewrite H0, H1, H2, H3, H4, H5.
  - apply insert_empty.
Qed.

(** In the state-machine revision the value of a key is what stands
    between the [:] and the end of the line, trimmed, when the line ends
    with a newline.  When the text ends without one, the value loses its
    last byte: [extraceString] removes the last byte it is given, the
    delimiter or not. *)
Theorem StateMachine_value_without_final_newline (k v : string) :
  contains _KV_SEP k = false ->
  contains _NEWLINE v = false ->
  (exists m key',
      Parse (k +:+ String _KV_SEP (v +:+ newline)) = Some (m, Ok tt)
      /\ Legacy.parseKey (Trim k _SPACE_CHARS) = Ok key'
      /\ items m = {[ key' := {| Legacy.rawKey := Trim k _SPACE_CHARS;
                                Legacy.val := Trim v _SPACE_CHARS;
                                Legacy.key := key' |} ]})
  /\ (isSpaceBuf v = false ->
      exists m key',
        Parse (k +:+ String _KV_SEP v) = Some (m, Ok tt)
        /\ Legacy.parseKey (Trim k _SPACE_CHARS) = Ok key'
        /\ items m = {[ key' := {| Legacy.rawKey := Trim k _SPACE_CHARS;
                                  Legacy.val :=
                                    Trim (String.substring 0 (String.length v - 1) v)
                                      _SPACE_CHARS;
                                  Legacy.key := key' |} ]}).
Proof.
  intros Hk Hv. destruct (parseKey_total (Trim k _SPACE_CHARS)) as [key' Hkey]. split.
  - destruct (run_one_pair k (v +:+ newline) (v +:+ newline) (Trim v _SPACE_CHARS) key' false)
      as (m & Hm & Hi); try assumption.
    + apply (ReadBytes_found v EmptyString _NEWLINE Hv).
    + reflexivity.
    + apply extraceString_delimited.
    + exists m, key'. auto.
  - intros Hsp.
    assert (Hne : v <> EmptyString) by (intros ->; discriminate Hsp).
    destruct (run_one_pair k v v
                (Trim (String.substring 0 (String.length v - 1) v) _SPACE_CHARS) key' true)
      as (m & Hm & Hi); try assumption.
    + apply (ReadBytes_absent v _NEWLINE Hv).
    + now rewrite Hsp.
    + now apply extraceString_undelimited.
    + exists m, key'. auto.
Qed.

Lemma StateMachine_value_witness :
  exists m key',
    Parse "port: 8080" = Some (m, Ok tt)
    /\ Legacy.parseKey "port" = Ok key'
    /\ items m = {[ key' := {| Legacy.rawKey := "port"; Legacy.val := "808";
                              Legacy.key := key' |} ]}.
Proof.
  exact (proj2 (StateMachine_value_without_final_newline "port" " 8080" eq_refl eq_refl)
           eq_refl).
Defined.

End StateMachineValueFacts.

(** ** Composite array keys of the first revision *)

Section ArrayKeyFacts.

Import Legacy.

Lemma lastIndexAny_hit (s chars : string) :
  forall i last,
    lastIndexAny s chars i last = last
    \/ (i <= lastIndexAny s chars i last < i + len s
        /\ exists c, String.get (Z.to_nat (lastIndexAny s chars i last - i)) s = Some c
                     /\ inb c chars = true).
Proof.
  induction s as [|c s IH]; intros i last; [now left|].
  cbn [lastIndexAny]. rewrite len_String. pose proof (len_nonneg s).
  destruct (inb c chars) eqn:Hc.
  - destruct (IH (i + 1) i) as [->|(Hr & d & Hd & Hin)]; right.
    + split; [lia|]. exists c. rewrite Z.sub_diag. auto.
    + split; [lia|]. exists d. split; [|exact Hin].
      replace (Z.to_nat (lastIndexAny s chars (i + 1) i - i))
        with (S (Z.to_nat (lastIndexAny s chars (i + 1) i - (i + 1)))) by lia.
      exact Hd.
  - destruct (IH (i + 1) last) as [->|(Hr & d & Hd & Hin)]; [now left|right].
    split; [lia|]. exists d. split; [|exact Hin].
    replace (Z.to_nat (lastIndexAny s chars (i + 1) last - i))
      with (S (Z.to_nat (lastIndexAny s chars (i + 1) last - (i + 1)))) by lia.
    exact Hd.
Qed.

(** On a raw key that matches the composite-array grammar
    [ToStringArray] neither panics nor answers "not found Array Tag": the
    last [@] of the key is found at the marker in position two at the
    least.  The value is split on the default separator when that is the
    last [@], on the byte before the closing bracket when the last [@]
    stands just before that byte, and the key is refused with "Array Sep
    can only set to one char" in every other case. *)
Theorem ToStringArray_on_array_key (item : Item) :
  compositeArrayKey (rawKey item) = true ->
  let i := LastIndexAny (rawKey item) (String _ARRAY_TAG EmptyString) in
  1 <= i < len (rawKey item) - 1
  /\ if (i =? 1) || (i =? len (rawKey item) - 3)
     then exists sep,
         (if i =? 1 then sep = _DEFAULT_SEP
          else String.get (String.length (rawKey item) - 2) (rawKey item) = Some sep)
         /\ ToStringArray item = Ok (Split (val item) (string_of_byte sep))
     else ToStringArray item = Err ErrSepOneChar.
Proof.
  destruct item as [raw v ky]. cbn [rawKey val]. intros Hg.
  unfold compositeArrayKey in Hg.
  destruct raw as [|c0 [|c1 raw]]; try discriminate Hg.
  cbn [String.get] in Hg.
  destruct (lastByte (String c0 (String c1 raw))) as [cl|] eqn:Hlb; [|discriminate Hg].
  apply andb_true_iff in Hg as [Hg Hlen]. apply andb_true_iff in Hg as [Hg H1].
  apply andb_true_iff in Hg as [H0 Hl].
  apply Ascii.eqb_eq in H0 as ->. apply Ascii.eqb_eq in H1 as ->.
  apply Ascii.eqb_eq in Hl as ->. apply Nat.leb_le in Hlen.
  set (key := String "[" (String "@" raw)) in *.
  assert (Hk : 4 <= len key) by (unfold len; lia).
  assert (Hi : LastIndexAny key (String _ARRAY_TAG EmptyString)
               = lastIndexAny raw "@" 2 1) by reflexivity.
  assert (Hlr : len key = len raw + 2) by (unfold key; rewrite !len_String; lia).
  assert (Hlast : forall c, String.get (String.length key - 1) key = Some c -> c = "]"%char).
  { intros c Hc. unfold lastByte in Hlb. congruence. }
  cbv zeta. rewrite Hi.
  pose proof (lastIndexAny_hit raw "@" 2 1) as Hb.
  set (i := lastIndexAny raw "@" 2 1) in *.
  assert (Hne : i <> len key - 1).
  { intros He. destruct Hb as [Hb|(Hb & c & Hc & Hin)]; [lia|].
    (* the byte at the last [@] is an [@], the last byte is a bracket *)
    cbn [inb] in Hin. rewrite orb_false_r in Hin. apply Ascii.eqb_eq in Hin as ->.
    assert (Hc' : String.get (String.length key - 1) key = Some "@"%char).
    { rewrite <- Hc. unfold key. cbn [String.length].
      replace (S (S (String.length raw)) - 1)%nat with (S (S (Z.to_nat (i - 2))))
        by (unfold len in *; lia).
      reflexivity. }
    specialize (Hlast _ Hc'). discriminate Hlast. }
  assert (Hrange : 1 <= i < len key - 1) by (destruct Hb as [Hb|[Hb _]]; lia).
  split; [exact Hrange|].
  assert (HT : ToStringArray {| rawKey := key; val := v; key := ky |}
               = let! sep := (if i =? 1 then Ok _DEFAULT_SEP
                              else if negb (i =? len key - 3) then Err ErrSepOneChar
                                   else index key (i + 1)) in
                 Ok (Split v (string_of_byte sep))).
  { unfold ToStringArray. cbn [rawKey val]. rewrite Hi. fold i.
    unfold _ARRAY_TAG, _COMPOSITE_LEFT, _COMPOSITE_RIGHT.
    change (@index error key 0) with (@Ok error _ "["%char).
    change (@index error key 1) with (@Ok error _ "@"%char).
    replace (@index error key (len key - 1)) with (@Ok error _ "]"%char)
      by (unfold key in *; now rewrite index_last, Hlb).
    cbn [bind]. change (neqb "[" "[") with false. change (neqb "]" "]") with false.
    change (neqb "@" "@") with false. cbv iota.
    destruct (Z.ltb_spec (len key) 4); [lia|]. cbn [bind].
    destruct (Z.eqb_spec i (-1)); [lia|]. reflexivity. }
  rewrite HT. clear HT.
  destruct (Z.eqb_spec i 1) as [E1|E1]; cbn [orb negb bind].
  - exists _DEFAULT_SEP. split; reflexivity.
  - destruct (Z.eqb_spec i (len key - 3)) as [E3|E3]; cbn [negb]; [|reflexivity].
    destruct (@index_in_range error key (i + 1) ltac:(lia)) as (c & Hc & Hget).
    exists c. split.
    + rewrite <- Hget. f_equal. unfold len in *. lia.
    + rewrite Hc. reflexivity.
Qed.

Lemma ToStringArray_on_array_key_witness :
  ToStringArray {| rawKey := "[@a@bc]"; val := "1 2"; key := "a@bc" |}
  = Err ErrSepOneChar.
Proof.
  exact (proj2 (ToStringArray_on_array_key
                  {| rawKey := "[@a@bc]"; val := "1 2"; key := "a@bc" |} eq_refl)).
Defined.

End ArrayKeyFacts.

(** ** The line-by-line parser of the first revision *)

Section LegacyParseFacts.

Import Legacy.

(** What holds of every item of a configuration of the first revision. *)
Local Abbreviation wellKeyed conf :=
  (forall k item, items conf !! k = Some item ->
     key item = k /\ parseKey (rawKey item) = Ok k /\ val item <> EmptyString).

Lemma Legacy_parseLine_outcome (conf : Conf) (line : string) :
  parseLine conf line = Ok conf
  \/ (exists e, parseLine conf line = Err e)
  \/ (exists item,
        parseKey (rawKey item) = Ok (key item) /\ val item <> EmptyString
        /\ parseLine conf line
           = Ok {| filePath := filePath conf;
                   items := <[key item := item]> (items conf) |}).
Proof.
  unfold parseLine. remember (TrimLeft line _SPACE_CHARS) as ls eqn:Hls.
  destruct (Z.eqb_spec (len ls) 0) as [|Hn]; [now left|].
  destruct ls as [|c0 rest]; [unfold len in Hn; cbn in Hn; lia|].
  symmetry in Hls. apply TrimLeft_head in Hls.
  rewrite index_last. destruct (lastByte_String c0 rest) as [cl Hcl]. rewrite Hcl.
  cbn [bind].
  assert (Hs : exists tail,
             (if Ascii.eqb cl _NEWLINE
              then @slice error (String c0 rest) 0 (len (String c0 rest) - 1)
              else Ok (String c0 rest)) = Ok (String c0 tail)).
  { destruct (Ascii.eqb_spec cl _NEWLINE) as [->|_]; [|eauto].
    rewrite slice_in_range
      by (rewrite ?len_String; pose proof (len_nonneg rest); lia).
    destruct rest as [|c1 rest].
    - injection Hcl as ->. discriminate Hls.
    - replace (Z.to_nat (len (String c0 (String c1 rest)) - 1 - 0))
        with (S (String.length rest)) by (unfold len; cbn [String.length]; lia).
      change (Z.to_nat 0) with O. cbn [String.substring]. eauto. }
  destruct Hs as [tail ->]. cbn [bind].
  change (@index error (String c0 tail) 0) with (@Ok error _ c0). cbn [bind].
  destruct (Ascii.eqb c0 _COMMENT_TAG); [now left|].
  destruct (SplitN (String c0 tail) (String _KV_SEP EmptyString) 2)
    as [|k [|v [|? ?]]]; try (right; left; eauto; fail).
  destruct (parseKey_total (Trim k _SPACE_CHARS)) as [key' Hk]. rewrite Hk. cbn [bind].
  destruct (Z.eqb_spec (len (Trim v _SPACE_CHARS)) 0) as [|Hv]; [right; left; eauto|].
  right. right.
  exists {| rawKey := Trim k _SPACE_CHARS; val := Trim v _SPACE_CHARS; key := key' |}.
  cbn [rawKey val key]. split; [exact Hk|]. split; [|reflexivity].
  intros He. rewrite He in Hv. now apply Hv.
Qed.

Lemma Legacy_parseLines_outcome (lines : list string) :
  forall conf, wellKeyed conf ->
    exists conf' r,
      parseLines conf lines = (conf', r)
      /\ (r = Ok tt \/ exists e, r = Err e)
      /\ wellKeyed conf'.
Proof.
  induction lines as [|line rest IH]; intros conf Hinv; cbn [parseLines].
  - exists conf, (Ok tt). auto.
  - destruct (Legacy_parseLine_outcome conf line)
      as [->|[[e ->]|(item & Hk & Hv & ->)]].
    + now apply IH.
    + exists conf, (Err e). eauto.
    + apply IH. cbn [items]. intros k it Hl.
      destruct (decide (key item = k)) as [<-|Hne].
      * rewrite lookup_insert_eq in Hl. injection Hl as <-. auto.
      * rewrite lookup_insert_ne in Hl by exact Hne. now apply Hinv.
Qed.

(** The line-by-line [Parse] of the first revision never panics: each
    byte it reads and each slice it takes is in range, also in
    [parseKey].  It returns no error or an error value, and every item
    that it has stored stands under the key that [parseKey] gives for its
    raw key, with a value that is not empty. *)
Theorem Legacy_Parse_returns (path text : string) :
  exists conf r,
    Parse (New path) text = (conf, r)
    /\ (r = Ok tt \/ exists e, r = Err e)
    /\ forall k item, items conf !! k = Some item ->
         key item = k /\ parseKey (rawKey item) = Ok k /\ val item <> EmptyString.
Proof.
  unfold Parse. apply Legacy_parseLines_outcome.
  intros k item Hl. cbn [New items] in Hl. now rewrite lookup_empty in Hl.
Qed.

End LegacyParseFacts.

(** ** Comments and blank lines of the current revision *)

Section CommentFacts.

Import Current.
Local Open Scope list_scope.

Lemma parseLine_skips (conf : Conf) (line : string) :
  Trim line _SPACE_CHARS = EmptyString
  \/ String.get 0 (Trim line _SPACE_CHARS) = Some _COMMENT_TAG ->
  parseLine conf line = Ok conf.
Proof.
  intros H. rewrite parseLine_classify. unfold classify.
  destruct (Trim line _SPACE_CHARS) as [|c0 t]; [reflexivity|].
  destruct H as [H|H]; [discriminate H|]. cbn [String.get] in H.
  injection H as ->. reflexivity.
Qed.

(** A line that is blank once trimmed, or whose first byte after
    trimming is [#], changes nothing wherever it stands in the text:
    [_parse] ends in the same state with the same result as on the text
    without that line. *)
Theorem comment_and_blank_lines_are_skipped
    (conf : Conf) (before_ after_ : list string) (line : string) :
  Trim line _SPACE_CHARS = EmptyString
  \/ String.get 0 (Trim line _SPACE_CHARS) = Some _COMMENT_TAG ->
  _parse conf (before_ ++ line :: after_) = _parse conf (before_ ++ after_).
Proof.
  intros H. rewrite !_parse_app.
  destruct (_parse conf before_) as [conf' [[]| |]]; try reflexivity.
  cbn [_parse]. now rewrite (parseLine_skips conf' line H).
Qed.

Lemma comment_line_witness :
  _parse (New "conf") (["a: 1" +:+ newline] ++ ("  # [s]: x" +:+ newline) :: ["b: 2"])
  = _parse (New "conf") (["a: 1" +:+ newline] ++ ["b: 2"]).
Proof.
  apply (comment_and_blank_lines_are_skipped (New "conf")
           ["a: 1" +:+ newline] ["b: 2"] ("  # [s]: x" +:+ newline)).
  right. reflexivity.
Defined.

End CommentFacts.

(** ** The separator of arrays and the lines without [:], revision by revision *)

Section RevisionFacts.

Local Open Scope list_scope.

Lemma contains_app (c : ascii) (a b : string) :
  contains c (a +:+ b) = contains c a || contains c b.
Proof.
  induction a as [|d a IH]; [reflexivity|].
  rewrite app_String. cbn [contains]. now rewrite IH, orb_assoc.
Qed.

Lemma app_app (a b c : string) : (a +:+ b) +:+ c = a +:+ (b +:+ c).
Proof.
  induction a as [|d a IH]; [reflexivity|]. rewrite !app_String. now rewrite IH.
Qed.

(** C1: in the first revision an item with raw key [[@K]] and value
    [1 2 3] converts to [[1,2,3]], and so does an item with raw key
    [[@K@,]] and value [1,2,3]: a key [[@k]] splits the value on the
    default separator, a key [[@k@c]] on the byte [c] that it names, read
    from the raw key at the time of the access.  In the current revision
    an item keeps no raw key and the conversions never read the key: the
    value is split on the package variable [elementSep].  The line
    [[@K@,]: 1,2,3] is stored there under the key as written, its value
    is one element with the default separator and [GetIntArray] returns
    an error; the value converts to [[1,2,3]] only after
    [SetElementSep(',')]. *)
Theorem C1_separator_override_only_in_first_revision :
  Legacy.ToIntArray
    {| Legacy.rawKey := "[@K]"; Legacy.val := "1 2 3"; Legacy.key := "K" |}
  = Ok [1; 2; 3]
  /\ Legacy.ToIntArray
       {| Legacy.rawKey := "[@K@,]"; Legacy.val := "1,2,3"; Legacy.key := "K" |}
     = Ok [1; 2; 3]
  /\ (forall k v ky, k <> EmptyString -> contains "@" k = false ->
        Legacy.ToStringArray
          {| Legacy.rawKey := "[@" +:+ k +:+ "]"; Legacy.val := v; Legacy.key := ky |}
        = Ok (Split v (string_of_byte _DEFAULT_SEP)))
  /\ (forall k c v ky, c <> "@"%char ->
        Legacy.ToStringArray
          {| Legacy.rawKey := "[@" +:+ k +:+ "@" +:+ String c "]"; Legacy.val := v;
             Legacy.key := ky |}
        = Ok (Split v (string_of_byte c)))
  /\ (forall sep k k' v,
        Current.ToStringArray sep {| Current.key := k; Current.val := v |}
        = Current.ToStringArray sep {| Current.key := k'; Current.val := v |}
        /\ Current.ToIntArray sep {| Current.key := k; Current.val := v |}
           = Current.ToIntArray sep {| Current.key := k'; Current.val := v |})
  /\ Current.ToIntArray _DEFAULT_SEP {| Current.key := "[@K]"; Current.val := "1 2 3" |}
     = Ok [1; 2; 3]
  /\ (let conf :=
        fst (Current.Parse (fun _ => Some "[@K@,]: 1,2,3") (Current.New "conf")) in
      Current.GetItem conf "[@K@,]"
      = Ok {| Current.key := "[@K@,]"; Current.val := "1,2,3" |}
      /\ Current.HasItem conf "K" = false
      /\ Current.GetStringArray _DEFAULT_SEP conf "[@K@,]" = Ok ["1,2,3"]
      /\ Current.GetIntArray _DEFAULT_SEP conf "[@K@,]"
         = Err (Current.WrapErr (Current.ErrNum ErrSyntax)))
  /\ Current.ToIntArray ","
       {| Current.key := "[@K@,]"; Current.val := "1,2,3" |}
     = Ok [1; 2; 3].
Proof.
  split; [reflexivity|]. split; [reflexivity|].
  split; [intros k v ky Hk Hat; now apply ToStringArray_default_sep|].
  split; [intros k c v ky Hc; now apply ToStringArray_named_sep|].
  split; [intros sep k k' v; split; reflexivity|].
  split; [vm_compute; reflexivity|].
  split; [|vm_compute; reflexivity].
  cbv zeta. repeat split; vm_compute; reflexivity.
Qed.

Lemma C1_separator_override_witness :
  Legacy.ToStringArray
    {| Legacy.rawKey := "[@Ks@;]"; Legacy.val := "a;b c"; Legacy.key := "Ks" |}
  = Ok ["a"; "b c"].
Proof.
  exact (proj1 (proj2 (proj2 (proj2 C1_separator_override_only_in_first_revision)))
           "Ks" ";"%char "a;b c" "Ks" ltac:(discriminate)).
Defined.

(** C6: in the current revision [ToStringArray] leaves out the segments
    that are empty as they come out of the split and trims the others
    afterwards, so that a segment made of tabs or newlines is returned as
    the empty string: the value [a \t b] gives [a], the empty string and
    [b], and [ToIntArray] fails on the value [1 \t 2].  In the first
    revision [ToStringArray] returns the segments as they come out of the
    split, none left out and none trimmed. *)
Theorem C6_whitespace_segment_is_returned_empty :
  (forall sep item,
      Current.ToStringArray sep item
      = (fun p => Trim p _SPACE_CHARS)
          <$> filter (fun p => p <> EmptyString)
                (Split (Current.val item) (string_of_byte sep)))
  /\ (let line := "k: a " +:+ tab +:+ " b" in
      let conf := fst (Current.Parse (fun _ => Some line) (Current.New "conf")) in
      Current.GetItem conf "k"
      = Ok {| Current.key := "k"; Current.val := "a " +:+ tab +:+ " b" |}
      /\ Split ("a " +:+ tab +:+ " b") (string_of_byte _DEFAULT_SEP) = ["a"; tab; "b"]
      /\ Trim tab _SPACE_CHARS = EmptyString
      /\ Current.GetStringArray _DEFAULT_SEP conf "k" = Ok ["a"; EmptyString; "b"])
  /\ Current.ToStringArray _DEFAULT_SEP
       {| Current.key := "k"; Current.val := "1 " +:+ tab +:+ " 2" |}
     = ["1"; EmptyString; "2"]
  /\ Current.ToIntArray _DEFAULT_SEP
       {| Current.key := "k"; Current.val := "1 " +:+ tab +:+ " 2" |}
     = Err (Current.WrapErr (Current.ErrNum ErrSyntax))
  /\ (forall k v ky, k <> EmptyString -> contains "@" k = false ->
        Legacy.ToStringArray
          {| Legacy.rawKey := "[@" +:+ k +:+ "]"; Legacy.val := v; Legacy.key := ky |}
        = Ok (Split v (string_of_byte _DEFAULT_SEP)))
  /\ Legacy.ToStringArray
       {| Legacy.rawKey := "[@K]"; Legacy.val := "a  b " +:+ tab; Legacy.key := "K" |}
     = Ok ["a"; EmptyString; "b"; tab].
Proof.
  split; [intros sep item; apply ToStringArray_filter_then_trim|].
  split; [cbv zeta; repeat split; vm_compute; reflexivity|].
  split; [vm_compute; reflexivity|].
  split; [vm_compute; reflexivity|].
  split; [intros k v ky Hk Hat; now apply ToStringArray_default_sep|].
  vm_compute. reflexivity.
Qed.

Lemma C6_first_revision_witness :
  Legacy.ToStringArray
    {| Legacy.rawKey := "[@K]"; Legacy.val := " a  b"; Legacy.key := "K" |}
  = Ok [EmptyString; "a"; EmptyString; "b"].
Proof.
  exact (proj1 (proj2 (proj2 (proj2 (proj2 C6_whitespace_segment_is_returned_empty))))
           "K" " a  b" "K" ltac:(discriminate) eq_refl).
Defined.

(** C7: in the current revision a line that, once trimmed, is not empty,
    is no comment and no section header, and holds no [:], makes [Parse]
    return an error, also when it is the last line of the text and has no
    newline; the error cites the trimmed line as soon as the lines before
    it are read without error.  The state-machine revision reads a key up
    to the next [:] across the newlines: a line without [:] that is
    followed by a line with one is taken into the key of that line, and
    [Parse] returns no error; only a line without [:] at the end of the
    text makes it return an error. *)
Theorem C7_state_machine_swallows_a_line_without_separator :
  (forall (fs : string -> option string) (path text : string)
          (pre post : list string) (l t : string),
      fs path = Some text ->
      bufio.ReadLines text = pre ++ l :: post ->
      t = Trim l _SPACE_CHARS ->
      t <> EmptyString ->
      String.get 0 t <> Some "#"%char ->
      ~ (String.get 0 t = Some "["%char /\ lastByte t = Some "]"%char) ->
      contains ":" t = false ->
      exists conf e,
        Current.Parse fs (Current.New path) = (conf, Err e)
        /\ (snd (Current._parse (Current.New path) pre) = Ok tt ->
            e = Current.ErrNeedColon t))
  /\ (forall l k v : string,
        contains ":" l = false -> contains ":" k = false ->
        contains _NEWLINE v = false ->
        exists m key',
          StateMachine.Parse (l +:+ newline +:+ k +:+ ":" +:+ v +:+ newline)
          = Some (m, Ok tt)
          /\ Legacy.parseKey (Trim (l +:+ newline +:+ k) _SPACE_CHARS) = Ok key'
          /\ StateMachine.items m
             = {[ key' := {| Legacy.rawKey := Trim (l +:+ newline +:+ k) _SPACE_CHARS;
                             Legacy.val := Trim v _SPACE_CHARS;
                             Legacy.key := key' |} ]})
  /\ (exists m,
        StateMachine.Parse
          ("a: 1" +:+ newline +:+ "item1jfak" +:+ newline +:+ "b: 2" +:+ newline)
        = Some (m, Ok tt)
        /\ StateMachine.items m
           = <[ "item1jfak" +:+ newline +:+ "b" :=
                  {| Legacy.rawKey := "item1jfak" +:+ newline +:+ "b";
                     Legacy.val := "2";
                     Legacy.key := "item1jfak" +:+ newline +:+ "b" |} ]>
               {[ "a" := {| Legacy.rawKey := "a"; Legacy.val := "1";
                            Legacy.key := "a" |} ]})
  /\ snd <$> StateMachine.Parse ("item1:  valu" +:+ newline +:+ "item1jfak")
     = Some (Err StateMachine.EOF).
Proof.
  split; [|split; [|split]].
  - intros fs path text pre post l t. apply line_without_separator_is_an_error.
  - intros l k v Hl Hk Hv.
    destruct (parseKey_total (Trim (l +:+ newline +:+ k) _SPACE_CHARS)) as [key' Hkey].
    destruct (run_one_pair (l +:+ newline +:+ k) (v +:+ newline) (v +:+ newline)
                (Trim v _SPACE_CHARS) key' false) as (m & Hm & Hi).
    + unfold _KV_SEP. rewrite !contains_app, Hl, Hk. reflexivity.
    + apply (ReadBytes_found v EmptyString _NEWLINE Hv).
    + reflexivity.
    + apply extraceString_delimited.
    + exact Hkey.
    + exists m, key'. split; [|split; [exact Hkey|exact Hi]].
      rewrite <- Hm. f_equal. rewrite !app_app. reflexivity.
  - eexists. split; vm_compute; reflexivity.
  - vm_compute. reflexivity.
Qed.

Lemma C7_swallowed_line_witness :
  exists m key',
    StateMachine.Parse ("foo" +:+ newline +:+ "bar: 1" +:+ newline) = Some (m, Ok tt)
    /\ Legacy.parseKey ("foo" +:+ newline +:+ "bar") = Ok key'
    /\ StateMachine.items m
       = {[ key' := {| Legacy.rawKey := "foo" +:+ newline +:+ "bar";
                       Legacy.val := "1"; Legacy.key := key' |} ]}.
Proof.
  exact (proj1 (proj2 C7_state_machine_swallows_a_line_without_separator)
           "foo" "bar" " 1" eq_refl eq_refl eq_refl).
Defined.

End RevisionFacts.
